(** * Fixed-capacity allocators: arena, chunk pool and memory stack

    A shallow embedding of the three STB-style allocators of the
    repository (arena allocator, [pool.h], stack allocator) together with
    the properties their description states about them.

    Conventions of the embedding.
    - [size_t] is the 64-bit unsigned type of an LP64 target: a value is a
      [Z] in [0, 2^64) and every arithmetic operation on it is written with
      its wrap-around; the operation also reports whether it wrapped.
    - A pointer into a byte buffer is its address, a [Z]; [NULL] is [0].
      Pointer arithmetic inside a block is plain addition.
    - A pointer to a handle structure is an [option] of the structure:
      [None] is the null handle.
    - A C function is a computation in [comp]: it either finishes with a
      value (and the record of whether some [size_t] operation wrapped on
      the way) or traps on an operation that has no defined result. *)

From stdpp Require Import base numbers list.

Local Open Scope Z_scope.

(** ** Machine arithmetic and the computation monad *)

Definition SIZE_BITS : Z := 64.
Definition SIZE_MOD : Z := 2 ^ SIZE_BITS.
Definition SIZE_MAX : Z := SIZE_MOD - 1.

Definition NULL : Z := 0.

(** [is_size z]: [z] is a value of type [size_t]. *)
Definition is_size (z : Z) : Prop := 0 <= z < SIZE_MOD.

Definition size_wrap (z : Z) : Z := z mod SIZE_MOD.

Inductive fault : Type :=
  | NullDeref     (* read or write through a null pointer *)
  | DivByZero     (* integer division by zero *)
  | OutOfBounds.  (* array access past the end of its block *)

Inductive comp (A : Type) : Type :=
  | Done (a : A) (wrapped : bool)
  | Trap (f : fault).
Arguments Done {A} a wrapped.
Arguments Trap {A} f.

#[export] Instance comp_ret : MRet comp := fun A a => Done a false.

#[export] Instance comp_bind : MBind comp := fun A B k m =>
  match m with
  | Trap f => Trap f
  | Done a w =>
      match k a with
      | Trap f => Trap f
      | Done b w' => Done b (w || w')
      end
  end.

(** What a C function hands back: a value, or nothing at all when it left
    through a bare [return;] or is defined [void]. *)
Inductive retval (A : Type) : Type :=
  | Value (a : A)
  | NoValue.
Arguments Value {A} a.
Arguments NoValue {A}.

Definition size_add (a b : Z) : comp Z :=
  Done (size_wrap (a + b)) (bool_decide (SIZE_MOD <= a + b)).

Definition size_sub (a b : Z) : comp Z :=
  Done (size_wrap (a - b)) (bool_decide (a < b)).

Definition size_mul (a b : Z) : comp Z :=
  Done (size_wrap (a * b)) (bool_decide (SIZE_MOD <= a * b)).

Definition size_div (a b : Z) : comp Z :=
  if bool_decide (b = 0) then Trap DivByZero else Done (a / b) false.

(** The blocks given back to the system by a [deinit]. *)
Inductive block : Type := Buffer | Ledger | Handle.

(** [finished c]: the computation [c] ended without a trap. *)
Definition finished {A} (c : comp A) : Prop :=
  match c with Done _ _ => True | Trap _ => False end.

(** [result c]: the value of [c], when it has one. *)
Definition result {A} (c : comp A) : option A :=
  match c with Done a _ => Some a | Trap _ => None end.

(** ** Arena allocator *)

Module Arena.

Record arena_t : Type := {
  data : Z;
  size : Z;
  capacity : Z
}.

(** [arena_init] asks the system for the handle and for [capacity] zeroed
    bytes; [got_handle] and [got_data] are the system's two answers
    ([got_data] is what [calloc] returned, [NULL] on failure). *)
Definition arena_init (got_handle : bool) (got_data : Z) (capacity : Z)
  : option arena_t :=
  if negb got_handle then None
  else if bool_decide (got_data = NULL) then None
  else Some {| data := got_data; size := 0; capacity := capacity |}.

Definition arena_alloc (arena : option arena_t) (bytes : Z)
  : comp (Z * option arena_t) :=
  match arena with
  | None => mret (NULL, None)
  | Some a =>
      if bool_decide (bytes > capacity a) then mret (NULL, arena)
      else
        room ← size_sub (capacity a) bytes;
        if bool_decide (size a > room) then mret (NULL, arena)
        else
          let ptr := data a + size a in
          size' ← size_add (size a) bytes;
          mret (ptr, Some {| data := data a; size := size';
                             capacity := capacity a |})
  end.

Definition arena_reset (arena : option arena_t) : option arena_t :=
  match arena with
  | None => None
  | Some a => Some {| data := data a; size := 0; capacity := capacity a |}
  end.

Definition arena_deinit (arena : option arena_t) : list block :=
  match arena with
  | None => []
  | Some _ => [Buffer; Handle]
  end.

End Arena.

(** ** Chunk pool *)

Module Pool.

Record pool_t : Type := {
  chunk_size : Z;
  n_chunks : Z;
  data : Z;
  ledger : option (list Z)   (* the bitmap's bytes; [None] is a null pointer *)
}.

Definition with_ledger (p : pool_t) (l : option (list Z)) : pool_t :=
  {| chunk_size := chunk_size p; n_chunks := n_chunks p;
     data := data p; ledger := l |}.

(** [bitmap[i]] as an rvalue. *)
Definition load (bitmap : option (list Z)) (i : Z) : comp Z :=
  match bitmap with
  | None => Trap NullDeref
  | Some l =>
      if bool_decide (i < 0) then Trap OutOfBounds
      else match l !! Z.to_nat i with
           | Some b => mret b
           | None => Trap OutOfBounds
           end
  end.

(** [bitmap[i] = v], the value truncated to [uint8_t]. *)
Definition store (bitmap : option (list Z)) (i : Z) (v : Z)
  : comp (option (list Z)) :=
  match bitmap with
  | None => Trap NullDeref
  | Some l =>
      if bool_decide (i < 0) then Trap OutOfBounds
      else if bool_decide (Z.to_nat i < length l)%nat
           then mret (Some (<[Z.to_nat i := v mod 256]> l))
           else Trap OutOfBounds
  end.

Definition SET_BIT (bitmap : option (list Z)) (index : Z)
  : comp (option (list Z)) :=
  b ← load bitmap (index / 8);
  store bitmap (index / 8) (Z.lor b (Z.shiftl 1 (index mod 8))).

Definition CLEAR_BIT (bitmap : option (list Z)) (index : Z)
  : comp (option (list Z)) :=
  b ← load bitmap (index / 8);
  store bitmap (index / 8) (Z.land b (Z.lnot (Z.shiftl 1 (index mod 8)))).

Definition CHECK_BIT (bitmap : option (list Z)) (index : Z) : comp Z :=
  b ← load bitmap (index / 8);
  mret (Z.land b (Z.shiftl 1 (index mod 8))).

(** The system's answers to the three requests of [pool_init]: the handle,
    the chunk buffer ([calloc]'s result, [NULL] on failure) and the
    ledger. *)
Definition pool_init (got_handle : bool) (got_data : Z) (got_ledger : bool)
    (chunk_size n_chunks : Z) : comp (option pool_t) :=
  if negb got_handle then mret None
  else if bool_decide (got_data = NULL) then mret None
  else
    padded ← size_add n_chunks 7;
    let ledger_size := padded / 8 in
    if negb got_ledger then mret None
    else mret (Some {| chunk_size := chunk_size; n_chunks := n_chunks;
                       data := got_data;
                       ledger := Some (replicate (Z.to_nat ledger_size) 0) |}).

(** The scan of [pool_alloc] from index [i], with [todo] indices left
    before [i] reaches [n_chunks]. *)
Fixpoint pool_alloc_from (todo : nat) (i : Z) (p : pool_t)
  : comp (Z * option pool_t) :=
  match todo with
  | O => mret (NULL, Some p)
  | S todo' =>
      bit ← CHECK_BIT (ledger p) i;
      if bool_decide (bit = 0) then
        ledger' ← SET_BIT (ledger p) i;
        offset ← size_mul i (chunk_size p);
        mret (data p + offset, Some (with_ledger p ledger'))
      else pool_alloc_from todo' (i + 1) p
  end.

Definition pool_alloc (pool : option pool_t) : comp (Z * option pool_t) :=
  match pool with
  | None => Trap NullDeref
  | Some p => pool_alloc_from (Z.to_nat (n_chunks p)) 0 p
  end.

Definition pool_free (pool : option pool_t) (chunk : Z)
  : comp (option pool_t) :=
  if bool_decide (chunk = NULL) then mret pool
  else match pool with
       | None => mret None
       | Some p =>
           if bool_decide (data p = NULL) then mret pool
           else if bool_decide (ledger p = None) then mret pool
           else
             diff ← size_sub chunk (data p);
             index ← size_div diff (chunk_size p);
             if bool_decide (index < n_chunks p) then
               ledger' ← CLEAR_BIT (ledger p) index;
               mret (Some (with_ledger p ledger'))
             else mret pool
       end.

Definition pool_deinit (pool : option pool_t) : list block :=
  match pool with
  | None => []
  | Some _ => [Buffer; Ledger; Handle]
  end.

End Pool.

(** ** Stack allocator *)

Module Stack.

Record MemStack : Type := {
  data : Z;
  size : Z;
  capacity : Z
}.

Definition mem_stack_init (got_handle : bool) (got_data : Z) (bytes : Z)
  : option MemStack :=
  if negb got_handle then None
  else if bool_decide (got_data = NULL) then None
  else Some {| data := got_data; size := 0; capacity := bytes |}.

Definition mem_stack_alloc (stack : option MemStack) (bytes : Z)
  : comp (retval Z * option MemStack) :=
  match stack with
  | None => mret (NoValue, None)
  | Some s =>
      top ← size_add (size s) bytes;
      if bool_decide (top > capacity s) then mret (Value NULL, stack)
      else
        let ptr := data s + size s in
        size' ← size_add (size s) bytes;
        mret (Value ptr, Some {| data := data s; size := size';
                                 capacity := capacity s |})
  end.

(** The function is defined [void mem_stack_pop], against the [int] of its
    prototype: the [return 0;] and [return 1;] of its body hand nothing
    back to the caller, no more than the bare [return;] for a null stack.
    What the call does is its effect on the cursor. *)
Definition mem_stack_pop (stack : option MemStack) (bytes : Z)
  : comp (retval Z * option MemStack) :=
  match stack with
  | None => mret (NoValue, None)
  | Some s =>
      if bool_decide (bytes > size s) then mret (NoValue, stack)
      else
        size' ← size_sub (size s) bytes;
        mret (NoValue, Some {| data := data s; size := size';
                               capacity := capacity s |})
  end.

Definition mem_stack_free (stack : option MemStack) : list block :=
  match stack with
  | None => []
  | Some _ => [Buffer; Handle]
  end.

End Stack.

(** ** Vocabulary of the specification *)

(** A region handed out by an allocator: its offset from the start of the
    buffer and its length. *)
Record region : Type := { offset : Z; len : Z }.

Definition region_of (base : Z) (ptr bytes : Z) : region :=
  {| offset := ptr - base; len := bytes |}.

(** Two regions share no byte. *)
Definition disjoint (r1 r2 : region) : Prop :=
  offset r1 + len r1 <= offset r2 \/ offset r2 + len r2 <= offset r1.

(** No two regions of the list, at different positions, share a byte. *)
Definition pairwise_disjoint (rs : list region) : Prop :=
  forall (i j : nat) (r1 r2 : region),
    i <> j -> rs !! i = Some r1 -> rs !! j = Some r2 -> disjoint r1 r2.

(** The bytes of the region are bytes of a buffer of [cap] bytes. *)
Definition within (cap : Z) (r : region) : Prop :=
  0 <= offset r /\ offset r + len r <= cap.

(** The regions follow one another from [from] on: each starts where the
    one before it ends. *)
Fixpoint stacked (from : Z) (rs : list region) : Prop :=
  match rs with
  | [] => True
  | r :: rs' => offset r = from /\ 0 <= len r /\ stacked (offset r + len r) rs'
  end.

Fixpoint total (reqs : list Z) : Z :=
  match reqs with
  | [] => 0
  | b :: reqs' => b + total reqs'
  end.

(** The offsets at which a cursor starting at [from] serves the requests
    [reqs] when it packs them one after the other. *)
Fixpoint starts (from : Z) (reqs : list Z) : list Z :=
  match reqs with
  | [] => []
  | b :: reqs' => from :: starts (from + b) reqs'
  end.

(** The regions of the requests that were granted: those answered with a
    pointer other than [NULL]. *)
Fixpoint granted (base : Z) (ps reqs : list Z) : list region :=
  match ps, reqs with
  | p :: ps', b :: reqs' =>
      if bool_decide (p = NULL) then granted base ps' reqs'
      else region_of base p b :: granted base ps' reqs'
  | _, _ => []
  end.

Module ArenaSpec.
Import Arena.

(** A handle as [arena_init] makes them: a buffer that is not null and
    fields that are [size_t] values. *)
Definition handle_ok (a : arena_t) : Prop :=
  NULL < data a /\ is_size (size a) /\ is_size (capacity a).

(** The allocation requests of [reqs], issued in order; the pointers they
    return. *)
Fixpoint alloc_all (arena : option arena_t) (reqs : list Z)
  : comp (list Z * option arena_t) :=
  match reqs with
  | [] => mret ([], arena)
  | bytes :: reqs' =>
      '(p, arena') ← arena_alloc arena bytes;
      '(ps, arena'') ← alloc_all arena' reqs';
      mret (p :: ps, arena'')
  end.

Inductive op : Type :=
  | Alloc (bytes : Z)
  | Reset.

Definition op_ok (o : op) : Prop :=
  match o with Alloc bytes => is_size bytes | Reset => True end.

Definition step (arena : option arena_t) (o : op) : comp (option arena_t) :=
  match o with
  | Alloc bytes => '(_, arena') ← arena_alloc arena bytes; mret arena'
  | Reset => mret (arena_reset arena)
  end.

Fixpoint run (arena : option arena_t) (ops : list op)
  : comp (option arena_t) :=
  match ops with
  | [] => mret arena
  | o :: ops' => arena' ← step arena o; run arena' ops'
  end.

End ArenaSpec.

Module StackSpec.
Import Stack.

(** A handle as [mem_stack_init] makes them. *)
Definition handle_ok (s : MemStack) : Prop :=
  NULL < data s /\ is_size (size s) /\ is_size (capacity s).

(** The allocation requests of [reqs], issued in order; what each call
    returns. *)
Fixpoint alloc_all (stack : option MemStack) (reqs : list Z)
  : comp (list (retval Z) * option MemStack) :=
  match reqs with
  | [] => mret ([], stack)
  | bytes :: reqs' =>
      '(r, stack') ← mem_stack_alloc stack bytes;
      '(rs, stack'') ← alloc_all stack' reqs';
      mret (r :: rs, stack'')
  end.

Inductive op : Type :=
  | Alloc (bytes : Z)
  | Pop (bytes : Z).

Definition op_ok (o : op) : Prop :=
  match o with Alloc bytes | Pop bytes => is_size bytes end.

Definition step (stack : option MemStack) (o : op)
  : comp (option MemStack) :=
  match o with
  | Alloc bytes => '(_, stack') ← mem_stack_alloc stack bytes; mret stack'
  | Pop bytes => '(_, stack') ← mem_stack_pop stack bytes; mret stack'
  end.

Fixpoint run (stack : option MemStack) (ops : list op)
  : comp (option MemStack) :=
  match ops with
  | [] => mret stack
  | o :: ops' => stack' ← step stack o; run stack' ops'
  end.

(** The handle reached by one byte of allocation on a stack of ten. *)
Definition one_of_ten : MemStack :=
  {| data := 4096; size := 1; capacity := 10 |}.

(** The address a successful call returned, or [NULL]. *)
Definition address (r : retval Z) : Z :=
  match r with Value p => p | NoValue => NULL end.

End StackSpec.

Module PoolSpec.
Import Pool.

(** Bit [i] of a bitmap given as its bytes; a bit past the end reads as
    clear. *)
Definition bit_of (l : list Z) (i : Z) : bool :=
  Z.testbit (default 0 (l !! Z.to_nat (i / 8))) (i mod 8).

(** The ledger's record for chunk [i]: [true] when the chunk is taken. *)
Definition ledger_bit (p : pool_t) (i : Z) : bool :=
  match ledger p with
  | Some l => bit_of l i
  | None => false
  end.

(** A handle as [pool_init] makes them when the system grants the three
    requests: the buffer is not null and lies in the address space, the
    fields are [size_t] values, and the ledger has a bit for every
    chunk. *)
Definition handle_ok (p : pool_t) : Prop :=
  NULL < data p
  /\ is_size (chunk_size p) /\ is_size (n_chunks p)
  /\ data p + n_chunks p * chunk_size p <= SIZE_MOD
  /\ exists l : list Z, ledger p = Some l /\ n_chunks p <= 8 * Z.of_nat (length l).

(** The index [pool_free] computes for a chunk pointer. *)
Definition free_index (p : pool_t) (chunk : Z) : Z :=
  size_wrap (chunk - data p) / chunk_size p.

(** A pool of four chunks of sixteen bytes whose first two chunks are
    taken. *)
Definition two_of_four : pool_t :=
  {| chunk_size := 16; n_chunks := 4; data := 4096; ledger := Some [3] |}.

Inductive op : Type :=
  | Alloc
  | Free (chunk : Z).

Definition step (pool : option pool_t) (o : op) : comp (option pool_t) :=
  match o with
  | Alloc => '(_, pool') ← pool_alloc pool; mret pool'
  | Free chunk => pool_free pool chunk
  end.

Fixpoint run (pool : option pool_t) (ops : list op)
  : comp (option pool_t) :=
  match ops with
  | [] => mret pool
  | o :: ops' => pool' ← step pool o; run pool' ops'
  end.

(** [k] calls of [pool_alloc] in a row; the pointers they return. *)
Fixpoint alloc_n (pool : option pool_t) (k : nat)
  : comp (list Z * option pool_t) :=
  match k with
  | O => mret ([], pool)
  | S k' =>
      '(r, pool') ← pool_alloc pool;
      '(rs, pool'') ← alloc_n pool' k';
      mret (r :: rs, pool'')
  end.

(** The addresses of the [k] chunks from index [i] on, in a buffer at
    [base] cut into chunks of [cs] bytes. *)
Fixpoint chunk_addresses (base cs : Z) (i : Z) (k : nat) : list Z :=
  match k with
  | O => []
  | S k' => base + i * cs :: chunk_addresses base cs (i + 1) k'
  end.

End PoolSpec.

(** ** Facts about the machine arithmetic *)

Lemma SIZE_MOD_eq : SIZE_MOD = 18446744073709551616.
Proof. reflexivity. Qed.

(** Closes a goal about concrete [size_t] values. *)
Ltac size_facts :=
  unfold is_size, SIZE_MAX, NULL; rewrite ?SIZE_MOD_eq; simpl; lia.

Lemma size_wrap_small z : is_size z -> size_wrap z = z.
Proof. unfold is_size, size_wrap. intros H. apply Z.mod_small; lia. Qed.

Lemma size_wrap_range (z : Z) : is_size (size_wrap z).
Proof. unfold is_size, size_wrap. apply Z.mod_pos_bound. by rewrite SIZE_MOD_eq. Qed.

Lemma size_add_exact a b :
  is_size (a + b) -> size_add a b = Done (a + b) false.
Proof.
  intros H. unfold size_add. rewrite size_wrap_small by done.
  rewrite bool_decide_eq_false_2; [done | unfold is_size in H; lia].
Qed.

Lemma size_sub_exact a b :
  is_size a -> 0 <= b <= a -> size_sub a b = Done (a - b) false.
Proof.
  intros Ha Hb. unfold size_sub.
  rewrite size_wrap_small by (unfold is_size in *; lia).
  rewrite bool_decide_eq_false_2; [done | lia].
Qed.

Lemma bind_done {A B} (a : A) (k : A -> comp B) :
  Done a false ≫= k = k a.
Proof. unfold mbind, comp_bind. destruct (k a); done. Qed.

Lemma bind_flag {A B} (a : A) (w : bool) (k : A -> comp B) :
  Done a w ≫= k
  = match k a with Trap f => Trap f | Done b w' => Done b (w || w') end.
Proof. reflexivity. Qed.

Lemma bind_ret {A B} (a : A) (k : A -> comp B) :
  mret a ≫= k = k a.
Proof. apply bind_done. Qed.

(** ** Regions laid out one after the other *)

Lemma stacked_total (from : Z) (rs : list region) :
  stacked from rs -> 0 <= total (len <$> rs).
Proof.
  revert from. induction rs as [| r rs IH]; [done |].
  intros from (_ & Hlen & Hrest). specialize (IH _ Hrest).
  rewrite fmap_cons. simpl. lia.
Qed.

Lemma stacked_above (from : Z) (rs : list region) (i : nat) (r : region) :
  stacked from rs -> rs !! i = Some r -> from <= offset r.
Proof.
  revert from i. induction rs as [| r0 rs IH]; intros from i Hst Hi.
  - by rewrite lookup_nil in Hi.
  - destruct Hst as (Hfrom & Hlen & Hrest). destruct i as [| i]; simpl in Hi.
    + inversion Hi; subst. lia.
    + specialize (IH _ _ Hrest Hi). lia.
Qed.

Lemma stacked_pairwise_disjoint (from : Z) (rs : list region) :
  stacked from rs -> pairwise_disjoint rs.
Proof.
  revert from. induction rs as [| r0 rs IH]; intros from Hst i j r1 r2 Hij Hi Hj.
  - by rewrite lookup_nil in Hi.
  - destruct Hst as (Hfrom & Hlen & Hrest).
    destruct i as [| i], j as [| j]; simpl in Hi, Hj; [done | | |].
    + inversion Hi; subst r0. left. by eapply stacked_above.
    + inversion Hj; subst r0. right. by eapply stacked_above.
    + eapply (IH _ Hrest i j); [congruence | done | done].
Qed.

Lemma stacked_within (from cap : Z) (rs : list region) :
  0 <= from -> stacked from rs ->
  from + total (len <$> rs) <= cap -> Forall (within cap) rs.
Proof.
  revert from. induction rs as [| r rs IH]; intros from H0 Hst Hsum; [constructor |].
  destruct Hst as (Hfrom & Hlen & Hrest). rewrite fmap_cons in Hsum.
  simpl in Hsum. pose proof (stacked_total _ _ Hrest) as Htail.
  constructor.
  - split; lia.
  - apply (IH (offset r + len r)); [lia | done | lia].
Qed.

(** ** The arena allocator *)

Module ArenaFacts.
Import Arena ArenaSpec.

Lemma arena_alloc_fits (a : arena_t) (bytes : Z) :
  is_size (capacity a) -> 0 <= size a -> 0 <= bytes ->
  size a + bytes <= capacity a ->
  arena_alloc (Some a) bytes
  = Done (data a + size a,
          Some {| data := data a; size := size a + bytes;
                  capacity := capacity a |}) false.
Proof.
  intros Hc Hs Hb Hfit. unfold arena_alloc. unfold is_size in Hc.
  rewrite bool_decide_eq_false_2 by lia.
  rewrite size_sub_exact by (unfold is_size; lia). rewrite bind_done.
  rewrite bool_decide_eq_false_2 by lia.
  rewrite size_add_exact by (unfold is_size; lia). by rewrite bind_done.
Qed.

Lemma arena_alloc_full (a : arena_t) (bytes : Z) :
  is_size (capacity a) -> 0 <= bytes -> size a + bytes > capacity a ->
  arena_alloc (Some a) bytes = Done (NULL, Some a) false.
Proof.
  intros Hc Hb Hfull. unfold arena_alloc. unfold is_size in Hc.
  case_bool_decide; [done |].
  rewrite size_sub_exact by (unfold is_size; lia). rewrite bind_done.
  by rewrite bool_decide_eq_true_2 by lia.
Qed.

Lemma alloc_all_fits (reqs : list Z) :
  forall a : arena_t,
    is_size (capacity a) -> 0 <= size a ->
    Forall (fun b => 0 <= b) reqs -> size a + total reqs <= capacity a ->
    exists (ps : list Z) (a' : arena_t),
      alloc_all (Some a) reqs = Done (ps, Some a') false
      /\ length ps = length reqs
      /\ (NULL < data a -> Forall (fun p => p <> NULL) ps)
      /\ stacked (size a) (zip_with (region_of (data a)) ps reqs)
      /\ len <$> zip_with (region_of (data a)) ps reqs = reqs.
Proof.
  induction reqs as [| b reqs IH]; intros a Hc Hs Hreqs Hsum.
  - exists [], a. repeat split; by constructor.
  - inversion Hreqs as [| ? ? Hb Hreqs']; subst. simpl in Hsum.
    assert (0 <= total reqs) as Htot.
    { clear -Hreqs'. induction Hreqs'; simpl; lia. }
    destruct (IH {| data := data a; size := size a + b;
                    capacity := capacity a |})
      as (ps & a' & Hrun & Hlen & Hnn & Hst & Hlens);
      [done | simpl; lia | done | simpl; lia |].
    exists (data a + size a :: ps), a'. cbn [alloc_all].
    rewrite arena_alloc_fits by (done || lia). rewrite bind_done.
    rewrite Hrun, bind_done. simpl in *. split; [done |].
    split; [by rewrite Hlen |].
    split; [intros Hd; constructor; [unfold NULL in *; lia | auto] |].
    split.
    + repeat split; [lia | done |].
      replace (data a + size a - data a + b) with (size a + b) by lia. done.
    + f_equal. exact Hlens.
Qed.

Lemma arena_step_invariant (a : arena_t) (o : op) :
  is_size (capacity a) -> 0 <= size a <= capacity a -> op_ok o ->
  exists a' : arena_t,
    step (Some a) o = Done (Some a') false
    /\ 0 <= size a' <= capacity a'
    /\ capacity a' = capacity a /\ data a' = data a.
Proof.
  intros Hc Hs Ho. destruct o as [bytes |]; cbn [step].
  - destruct Ho as [Hb0 Hb]. destruct (decide (size a + bytes <= capacity a)).
    + rewrite arena_alloc_fits by (done || lia). rewrite bind_done.
      eexists. split; [reflexivity |]. simpl. lia.
    + rewrite arena_alloc_full by (done || lia). rewrite bind_done.
      exists a. by repeat split; try lia.
  - eexists. split; [reflexivity |]. simpl. unfold is_size in Hc. lia.
Qed.

Lemma arena_run_invariant (ops : list op) :
  forall a : arena_t,
    is_size (capacity a) -> 0 <= size a <= capacity a -> Forall op_ok ops ->
    exists a' : arena_t,
      run (Some a) ops = Done (Some a') false
      /\ 0 <= size a' <= capacity a'
      /\ capacity a' = capacity a /\ data a' = data a.
Proof.
  induction ops as [| o ops IH]; intros a Hc Hs Hops.
  - exists a. by repeat split; try lia.
  - inversion Hops as [| ? ? Ho Hops']; subst. cbn [run].
    destruct (arena_step_invariant a o Hc Hs Ho) as (a1 & Hstep & Hs1 & Hc1 & Hd1).
    rewrite Hstep, bind_done.
    destruct (IH a1) as (a2 & Hrun & Hs2 & Hc2 & Hd2);
      [by rewrite Hc1 | done | done |].
    exists a2. rewrite Hrun. repeat split; try lia; congruence.
Qed.

(** C4. On an arena handle, [arena_alloc] fails exactly when
    [bytes > capacity] or [size > capacity - bytes]; the guard reaches the
    subtraction only with [bytes <= capacity], so that no [size_t]
    operation of the call wraps; on success the call returns the address
    at the cursor and moves the cursor forward by [bytes]. (The bound
    [size <= capacity] of the handle is not needed for any of this.) *)
Theorem arena_alloc_bounds (a : arena_t) (bytes : Z) :
  handle_ok a -> is_size bytes ->
  exists (p : Z) (a' : arena_t),
    arena_alloc (Some a) bytes = Done (p, Some a') false
    /\ (p = NULL <-> bytes > capacity a \/ size a > capacity a - bytes)
    /\ (p = NULL -> a' = a)
    /\ (p <> NULL ->
        p = data a + size a
        /\ a' = {| data := data a; size := size a + bytes;
                   capacity := capacity a |}).
Proof.
  intros (Hd & Hs & Hc) Hb. unfold arena_alloc, NULL in *.
  unfold is_size in *.
  case_bool_decide as Hbig.
  - exists 0, a. repeat split; first [done | intros; lia].
  - rewrite size_sub_exact by (unfold is_size; lia). rewrite bind_done.
    case_bool_decide as Hroom.
    + exists 0, a. repeat split; first [done | intros; lia].
    + rewrite size_add_exact by (unfold is_size; lia). rewrite bind_done.
      eexists _, _. split; [reflexivity |].
      repeat split; first [done | intros; lia].
Qed.

Lemma arena_alloc_bounds_witness :
  exists (p : Z) (a' : arena_t),
    arena_alloc (Some {| data := 4096; size := 6; capacity := 10 |}) 5
    = Done (p, Some a') false
    /\ (p = NULL <-> 5 > 10 \/ 6 > 10 - 5)
    /\ (p = NULL -> a' = {| data := 4096; size := 6; capacity := 10 |})
    /\ (p <> NULL ->
        p = 4096 + 6
        /\ a' = {| data := 4096; size := 6 + 5; capacity := 10 |}).
Proof.
  apply (arena_alloc_bounds {| data := 4096; size := 6; capacity := 10 |} 5).
  - repeat split; size_facts.
  - size_facts.
Defined.

End ArenaFacts.

(** ** The stack allocator *)

Module StackFacts.
Import Stack StackSpec.

Lemma mem_stack_alloc_fits (s : MemStack) (bytes : Z) :
  is_size (capacity s) -> 0 <= size s -> 0 <= bytes ->
  size s + bytes <= capacity s ->
  mem_stack_alloc (Some s) bytes
  = Done (Value (data s + size s),
          Some {| data := data s; size := size s + bytes;
                  capacity := capacity s |}) false.
Proof.
  intros Hc Hs Hb Hfit. unfold mem_stack_alloc. unfold is_size in Hc.
  rewrite size_add_exact by (unfold is_size; lia). rewrite bind_done.
  rewrite bool_decide_eq_false_2 by lia. by rewrite bind_done.
Qed.

Lemma stack_alloc_all_fits (reqs : list Z) :
  forall s : MemStack,
    is_size (capacity s) -> 0 <= size s ->
    Forall (fun b => 0 <= b) reqs -> size s + total reqs <= capacity s ->
    exists (rs : list (retval Z)) (s' : MemStack),
      alloc_all (Some s) reqs = Done (rs, Some s') false
      /\ length rs = length reqs
      /\ (NULL < data s ->
          Forall (fun r => exists p, r = Value p /\ p <> NULL) rs)
      /\ stacked (size s)
           (zip_with (region_of (data s)) (address <$> rs) reqs)
      /\ len <$> zip_with (region_of (data s)) (address <$> rs) reqs = reqs.
Proof.
  induction reqs as [| b reqs IH]; intros s Hc Hs Hreqs Hsum.
  - exists [], s. repeat split; by constructor.
  - inversion Hreqs as [| ? ? Hb Hreqs']; subst. simpl in Hsum.
    assert (0 <= total reqs) as Htot.
    { clear -Hreqs'. induction Hreqs'; simpl; lia. }
    destruct (IH {| data := data s; size := size s + b;
                    capacity := capacity s |})
      as (rs & s' & Hrun & Hlen & Hnn & Hst & Hlens);
      [done | simpl; lia | done | simpl; lia |].
    exists (Value (data s + size s) :: rs), s'. cbn [alloc_all].
    rewrite mem_stack_alloc_fits by (done || lia). rewrite bind_done.
    rewrite Hrun, bind_done. simpl in *. split; [done |].
    split; [by rewrite Hlen |].
    split.
    { intros Hd; constructor; [| auto].
      eexists. split; [reflexivity | unfold NULL in *; lia]. }
    split.
    + repeat split; [lia | done |].
      replace (data s + size s - data s + b) with (size s + b) by lia. done.
    + f_equal. exact Hlens.
Qed.

Lemma stack_step_invariant (s : MemStack) (o : op) :
  is_size (capacity s) -> 0 <= size s <= capacity s -> op_ok o ->
  exists (s' : MemStack) (w : bool),
    step (Some s) o = Done (Some s') w
    /\ 0 <= size s' <= capacity s'
    /\ capacity s' = capacity s /\ data s' = data s.
Proof.
  intros Hc Hs Ho. destruct o as [bytes | bytes]; cbn [step].
  - unfold mem_stack_alloc, size_add, mbind, comp_bind, mret, comp_ret.
    pose proof (size_wrap_range (size s + bytes)) as [Hlo Hhi].
    case_bool_decide as Htop.
    + exists s. eexists. split; [reflexivity |]. by repeat split; try lia.
    + eexists _, _. split; [reflexivity |]. simpl. lia.
  - destruct Ho as [Hb0 Hb]. unfold mem_stack_pop.
    case_bool_decide as Hmany.
    + rewrite bind_ret. exists s, false. by repeat split; try lia.
    + rewrite size_sub_exact by (unfold is_size in *; lia).
      rewrite bind_done, bind_ret.
      eexists _, _. split; [reflexivity |]. simpl. lia.
Qed.

Lemma stack_run_invariant (ops : list op) :
  forall s : MemStack,
    is_size (capacity s) -> 0 <= size s <= capacity s -> Forall op_ok ops ->
    exists (s' : MemStack) (w : bool),
      run (Some s) ops = Done (Some s') w
      /\ 0 <= size s' <= capacity s'
      /\ capacity s' = capacity s /\ data s' = data s.
Proof.
  induction ops as [| o ops IH]; intros s Hc Hs Hops.
  - exists s, false. by repeat split; try lia.
  - inversion Hops as [| ? ? Ho Hops']; subst. cbn [run].
    destruct (stack_step_invariant s o Hc Hs Ho)
      as (s1 & w1 & Hstep & Hs1 & Hc1 & Hd1).
    destruct (IH s1) as (s2 & w2 & Hrun & Hs2 & Hc2 & Hd2);
      [by rewrite Hc1 | done | done |].
    exists s2, (w1 || w2). rewrite Hstep. unfold mbind, comp_bind.
    rewrite Hrun. repeat split; try lia; congruence.
Qed.

(** C1. [mem_stack_alloc] adds [size] and [bytes] in [size_t]: with one
    byte in use out of ten, a request of [SIZE_MAX] bytes wraps the sum to
    [0], passes the capacity test and is answered with the address at the
    cursor, although [1 + SIZE_MAX] exceeds the capacity; the wrap is
    recorded and the cursor ends at [0]. The state is the one
    [mem_stack_init] and a one-byte allocation produce. *)
Theorem mem_stack_alloc_wraps :
  (exists w, mem_stack_alloc (mem_stack_init true 4096 10) 1
             = Done (Value 4096, Some one_of_ten) w)
  /\ size one_of_ten + SIZE_MAX > capacity one_of_ten
  /\ mem_stack_alloc (Some one_of_ten) SIZE_MAX
     = Done (Value 4097, Some {| data := 4096; size := 0; capacity := 10 |})
            true.
Proof.
  split; [eexists; vm_compute; reflexivity |].
  split; [vm_compute; reflexivity | vm_compute; reflexivity].
Qed.

(** C5. [mem_stack_pop] with [bytes <= size] lowers the cursor by [bytes],
    and with [bytes > size] leaves the handle as it was given: cursor,
    capacity and buffer unchanged. In neither case does it hand back the
    [1] or [0] its prototype announces: defined [void], it returns no
    value, so the caller cannot tell the two cases apart. *)
Theorem mem_stack_pop_spec (s : MemStack) (bytes : Z) :
  is_size (size s) -> is_size bytes ->
  (bytes <= size s ->
     mem_stack_pop (Some s) bytes
     = Done (NoValue, Some {| data := data s; size := size s - bytes;
                              capacity := capacity s |}) false)
  /\ (bytes > size s ->
     mem_stack_pop (Some s) bytes = Done (NoValue, Some s) false).
Proof.
  intros Hs Hb. unfold mem_stack_pop. split; intros Hcmp.
  - rewrite bool_decide_eq_false_2 by lia.
    rewrite size_sub_exact by (unfold is_size in *; lia).
    by rewrite bind_done.
  - by rewrite bool_decide_eq_true_2.
Qed.

Lemma mem_stack_pop_spec_witness :
  mem_stack_pop (Some one_of_ten) 1
  = Done (NoValue, Some {| data := 4096; size := 0; capacity := 10 |}) false.
Proof.
  refine (proj1 (mem_stack_pop_spec one_of_ten 1 _ _) _);
    unfold is_size; simpl; rewrite ?SIZE_MOD_eq; lia.
Defined.

End StackFacts.

(** ** Properties shared by the arena and the stack *)

Lemma arena_init_granted (d C : Z) :
  d <> NULL ->
  Arena.arena_init true d C
  = Some {| Arena.data := d; Arena.size := 0; Arena.capacity := C |}.
Proof. intros Hd. unfold Arena.arena_init. simpl. by rewrite bool_decide_eq_false_2. Qed.

Lemma mem_stack_init_granted (d C : Z) :
  d <> NULL ->
  Stack.mem_stack_init true d C
  = Some {| Stack.data := d; Stack.size := 0; Stack.capacity := C |}.
Proof. intros Hd. unfold Stack.mem_stack_init. simpl. by rewrite bool_decide_eq_false_2. Qed.

Lemma arena_init_handle (gh : bool) (d C : Z) (a : Arena.arena_t) :
  Arena.arena_init gh d C = Some a ->
  Arena.data a = d /\ d <> NULL /\ Arena.size a = 0 /\ Arena.capacity a = C.
Proof.
  unfold Arena.arena_init. destruct gh; simpl; [| done].
  case_bool_decide; [done |]. intros [= <-]. done.
Qed.

Lemma mem_stack_init_handle (gh : bool) (d C : Z) (s : Stack.MemStack) :
  Stack.mem_stack_init gh d C = Some s ->
  Stack.data s = d /\ d <> NULL /\ Stack.size s = 0 /\ Stack.capacity s = C.
Proof.
  unfold Stack.mem_stack_init. destruct gh; simpl; [| done].
  case_bool_decide; [done |]. intros [= <-]. done.
Qed.

(** C6. On a fresh arena or stack of capacity [C] (the buffer granted at
    address [d]), a sequence of requests whose sizes add up to at most [C]
    is served in full: every call returns an address, no [size_t]
    operation wraps, and the regions returned are pairwise disjoint and
    lie inside the buffer. *)
Theorem sequential_allocations_fit (C d : Z) (reqs : list Z) :
  is_size C -> NULL < d ->
  Forall (fun b => 0 <= b) reqs -> total reqs <= C ->
  (exists (ps : list Z) (a' : Arena.arena_t),
     ArenaSpec.alloc_all (Arena.arena_init true d C) reqs
     = Done (ps, Some a') false
     /\ length ps = length reqs
     /\ Forall (fun p => p <> NULL) ps
     /\ pairwise_disjoint (zip_with (region_of d) ps reqs)
     /\ Forall (within C) (zip_with (region_of d) ps reqs))
  /\ (exists (rs : list (retval Z)) (s' : Stack.MemStack),
     StackSpec.alloc_all (Stack.mem_stack_init true d C) reqs
     = Done (rs, Some s') false
     /\ length rs = length reqs
     /\ Forall (fun r => exists p, r = Value p /\ p <> NULL) rs
     /\ pairwise_disjoint
          (zip_with (region_of d) (StackSpec.address <$> rs) reqs)
     /\ Forall (within C)
          (zip_with (region_of d) (StackSpec.address <$> rs) reqs)).
Proof.
  intros HC Hd Hreqs Hsum. unfold NULL in Hd. split.
  - rewrite arena_init_granted by (unfold NULL; lia).
    destruct (ArenaFacts.alloc_all_fits reqs
                {| Arena.data := d; Arena.size := 0; Arena.capacity := C |})
      as (ps & a' & Hrun & Hlen & Hnn & Hst & Hlens);
      [done | done | done | simpl; lia |].
    simpl in Hnn, Hst, Hlens. exists ps, a'.
    split; [done |]. split; [done |]. split; [by apply Hnn |].
    split; [by eapply stacked_pairwise_disjoint |].
    eapply stacked_within; [| exact Hst |]; [lia | rewrite Hlens; lia].
  - rewrite mem_stack_init_granted by (unfold NULL; lia).
    destruct (StackFacts.stack_alloc_all_fits reqs
                {| Stack.data := d; Stack.size := 0; Stack.capacity := C |})
      as (rs & s' & Hrun & Hlen & Hnn & Hst & Hlens);
      [done | done | done | simpl; lia |].
    simpl in Hnn, Hst, Hlens. exists rs, s'.
    split; [done |]. split; [done |]. split; [by apply Hnn |].
    split; [by eapply stacked_pairwise_disjoint |].
    eapply stacked_within; [| exact Hst |]; [lia | rewrite Hlens; lia].
Qed.

Lemma sequential_allocations_fit_witness :
  exists (ps : list Z) (a' : Arena.arena_t),
    ArenaSpec.alloc_all (Arena.arena_init true 4096 10) [3; 0; 7]
    = Done (ps, Some a') false
    /\ length ps = length [3; 0; 7]
    /\ Forall (fun p => p <> NULL) ps
    /\ pairwise_disjoint (zip_with (region_of 4096) ps [3; 0; 7])
    /\ Forall (within 10) (zip_with (region_of 4096) ps [3; 0; 7]).
Proof.
  refine (proj1 (sequential_allocations_fit 10 4096 [3; 0; 7] _ _ _ _)).
  - unfold is_size. rewrite SIZE_MOD_eq. lia.
  - unfold NULL. lia.
  - repeat constructor; lia.
  - simpl. lia.
Defined.

(** C8. From a handle made by [arena_init] or [mem_stack_init], every
    sequence of operations (allocate and reset on the arena, allocate and
    pop on the stack) runs to its end and leaves
    [0 <= size <= capacity], with the capacity given at initialisation. *)
Theorem cursor_within_capacity
    (gh gh' : bool) (d d' C C' : Z)
    (a0 : Arena.arena_t) (s0 : Stack.MemStack)
    (aops : list ArenaSpec.op) (sops : list StackSpec.op) :
  is_size C -> Arena.arena_init gh d C = Some a0 ->
  is_size C' -> Stack.mem_stack_init gh' d' C' = Some s0 ->
  Forall ArenaSpec.op_ok aops -> Forall StackSpec.op_ok sops ->
  (0 <= Arena.size a0 <= Arena.capacity a0
   /\ exists a : Arena.arena_t,
        ArenaSpec.run (Some a0) aops = Done (Some a) false
        /\ 0 <= Arena.size a <= Arena.capacity a
        /\ Arena.capacity a = C)
  /\ (0 <= Stack.size s0 <= Stack.capacity s0
   /\ exists (s : Stack.MemStack) (w : bool),
        StackSpec.run (Some s0) sops = Done (Some s) w
        /\ 0 <= Stack.size s <= Stack.capacity s
        /\ Stack.capacity s = C').
Proof.
  intros HC Ha HC' Hs Haops Hsops.
  apply arena_init_handle in Ha as (Had & _ & Has & Hac).
  apply mem_stack_init_handle in Hs as (Hsd & _ & Hss & Hsc).
  assert (0 <= C /\ 0 <= C') as [? ?] by (unfold is_size in *; lia).
  split; (split; [lia |]).
  - destruct (ArenaFacts.arena_run_invariant aops a0)
      as (a & Hrun & Hinv & Hcap & _); [by rewrite Hac | lia | done |].
    exists a. repeat split; first [done | lia | congruence].
  - destruct (StackFacts.stack_run_invariant sops s0)
      as (s & w & Hrun & Hinv & Hcap & _); [by rewrite Hsc | lia | done |].
    exists s, w. repeat split; first [done | lia | congruence].
Qed.

Lemma cursor_within_capacity_witness :
  exists (s : Stack.MemStack) (w : bool),
    StackSpec.run
      (Some {| Stack.data := 4096; Stack.size := 0; Stack.capacity := 10 |})
      [StackSpec.Alloc 1; StackSpec.Alloc SIZE_MAX; StackSpec.Alloc 4;
       StackSpec.Pop 2]
    = Done (Some s) w
    /\ 0 <= Stack.size s <= Stack.capacity s
    /\ Stack.capacity s = 10.
Proof.
  refine (proj2 (proj2 (cursor_within_capacity true true 4096 4096 10 10
    {| Arena.data := 4096; Arena.size := 0; Arena.capacity := 10 |}
    {| Stack.data := 4096; Stack.size := 0; Stack.capacity := 10 |}
    [ArenaSpec.Alloc 4; ArenaSpec.Reset]
    [StackSpec.Alloc 1; StackSpec.Alloc SIZE_MAX; StackSpec.Alloc 4;
     StackSpec.Pop 2] _ _ _ _ _ _))).
  - unfold is_size. rewrite SIZE_MOD_eq. lia.
  - reflexivity.
  - unfold is_size. rewrite SIZE_MOD_eq. lia.
  - reflexivity.
  - repeat constructor; size_facts.
  - repeat constructor; size_facts.
Defined.

(** C10. A request of zero bytes on an arena or stack handle whose cursor
    is within the capacity is granted: the call returns the address at the
    cursor, which is not [NULL], and leaves the handle as it was; this
    holds at [size = capacity] and at capacity [0] like anywhere else. *)
Theorem zero_byte_alloc_succeeds (a : Arena.arena_t) (s : Stack.MemStack) :
  ArenaSpec.handle_ok a -> Arena.size a <= Arena.capacity a ->
  StackSpec.handle_ok s -> Stack.size s <= Stack.capacity s ->
  (Arena.arena_alloc (Some a) 0
   = Done (Arena.data a + Arena.size a, Some a) false
   /\ Arena.data a + Arena.size a <> NULL)
  /\ (Stack.mem_stack_alloc (Some s) 0
   = Done (Value (Stack.data s + Stack.size s), Some s) false
   /\ Stack.data s + Stack.size s <> NULL).
Proof.
  intros (Had & [Has _] & Hac) Hafit (Hsd & [Hss _] & Hsc) Hsfit.
  unfold NULL in *. repeat split; try lia.
  - rewrite ArenaFacts.arena_alloc_fits by (done || lia).
    destruct a as [d n c]. simpl. by rewrite Z.add_0_r.
  - rewrite StackFacts.mem_stack_alloc_fits by (done || lia).
    destruct s as [d n c]. simpl. by rewrite Z.add_0_r.
Qed.

Lemma zero_byte_alloc_succeeds_witness :
  (Arena.arena_alloc
     (Some {| Arena.data := 4096; Arena.size := 0; Arena.capacity := 0 |}) 0
   = Done (4096 + 0,
           Some {| Arena.data := 4096; Arena.size := 0;
                   Arena.capacity := 0 |}) false
   /\ 4096 + 0 <> NULL)
  /\ (Stack.mem_stack_alloc
        (Some {| Stack.data := 4096; Stack.size := 10;
                 Stack.capacity := 10 |}) 0
   = Done (Value (4096 + 10),
           Some {| Stack.data := 4096; Stack.size := 10;
                   Stack.capacity := 10 |}) false
   /\ 4096 + 10 <> NULL).
Proof.
  apply (zero_byte_alloc_succeeds
           {| Arena.data := 4096; Arena.size := 0; Arena.capacity := 0 |}
           {| Stack.data := 4096; Stack.size := 10; Stack.capacity := 10 |}).
  - repeat split; size_facts.
  - simpl. lia.
  - repeat split; size_facts.
  - simpl. lia.
Defined.

(** ** The chunk pool *)

Module PoolFacts.
Import Pool PoolSpec.

(** *** The three bit macros on one byte *)

Lemma one_shifted_bits (k j : Z) :
  0 <= k -> Z.testbit (Z.shiftl 1 k) j = bool_decide (k = j).
Proof.
  intros Hk. rewrite Z.shiftl_1_l, Z.pow2_bits_eqb by done.
  case_bool_decide; [by apply Z.eqb_eq | by apply Z.eqb_neq].
Qed.

Lemma masked_zero (b k : Z) :
  0 <= k -> Z.land b (Z.shiftl 1 k) = 0 <-> Z.testbit b k = false.
Proof.
  intros Hk. split.
  - intros Hz. apply (f_equal (fun z => Z.testbit z k)) in Hz.
    rewrite Z.land_spec, one_shifted_bits, Z.bits_0 in Hz by done.
    rewrite bool_decide_eq_true_2 in Hz by done.
    by rewrite andb_true_r in Hz.
  - intros Hb. apply Z.bits_inj'. intros j _.
    rewrite Z.land_spec, one_shifted_bits, Z.bits_0 by done.
    case_bool_decide as Hj; [subst j; by rewrite Hb | apply andb_false_r].
Qed.

Lemma byte_low_bits (v j : Z) :
  0 <= j < 8 -> Z.testbit (v mod 256) j = Z.testbit v j.
Proof. intros Hj. change 256 with (2 ^ 8). apply Z.mod_pow2_bits_low. lia. Qed.

Lemma set_bits (b k j : Z) :
  0 <= k -> 0 <= j < 8 ->
  Z.testbit (Z.lor b (Z.shiftl 1 k) mod 256) j
  = Z.testbit b j || bool_decide (k = j).
Proof.
  intros Hk Hj. by rewrite byte_low_bits, Z.lor_spec, one_shifted_bits.
Qed.

Lemma cleared_bits (b k j : Z) :
  0 <= k -> 0 <= j < 8 ->
  Z.testbit (Z.land b (Z.lnot (Z.shiftl 1 k)) mod 256) j
  = Z.testbit b j && negb (bool_decide (k = j)).
Proof.
  intros Hk Hj.
  rewrite byte_low_bits, Z.land_spec, Z.lnot_spec, one_shifted_bits by lia.
  done.
Qed.

(** *** The macros on the ledger *)

Lemma slot_in_range (l : list Z) (i : Z) :
  0 <= i < 8 * Z.of_nat (length l) ->
  0 <= i / 8 /\ (Z.to_nat (i / 8) < length l)%nat /\ 0 <= i mod 8 < 8.
Proof.
  intros Hi.
  assert (0 <= i / 8) by (apply Z.div_pos; lia).
  assert (i / 8 < Z.of_nat (length l)) by (apply Z.div_lt_upper_bound; lia).
  repeat split; try lia; apply Z.mod_pos_bound; lia.
Qed.

Lemma load_in_range (l : list Z) (q : Z) :
  0 <= q -> (Z.to_nat q < length l)%nat ->
  load (Some l) q = Done (default 0 (l !! Z.to_nat q)) false.
Proof.
  intros Hq Hlt. unfold load. rewrite bool_decide_eq_false_2 by lia.
  destruct (lookup_lt_is_Some_2 l (Z.to_nat q) Hlt) as [b Hb].
  by rewrite Hb.
Qed.

Lemma store_in_range (l : list Z) (q v : Z) :
  0 <= q -> (Z.to_nat q < length l)%nat ->
  store (Some l) q v = Done (Some (<[Z.to_nat q := v mod 256]> l)) false.
Proof.
  intros Hq Hlt. unfold store. rewrite bool_decide_eq_false_2 by lia.
  by rewrite bool_decide_eq_true_2.
Qed.

(** Reading bit [j] after byte [i / 8] has been overwritten with [v]. *)
Lemma bit_of_insert (l : list Z) (i j v : Z) :
  0 <= i < 8 * Z.of_nat (length l) -> 0 <= j ->
  bit_of (<[Z.to_nat (i / 8) := v]> l) j
  = if bool_decide (j / 8 = i / 8) then Z.testbit v (j mod 8)
    else bit_of l j.
Proof.
  intros Hi Hj. destruct (slot_in_range l i Hi) as (Hq & Hlt & _).
  unfold bit_of. case_bool_decide as Hsame.
  - rewrite Hsame, list_lookup_insert_eq by done. done.
  - rewrite list_lookup_insert_ne; [done |].
    assert (0 <= j / 8) by (apply Z.div_pos; lia). lia.
Qed.

Lemma same_slot_other_bit (i j : Z) :
  j <> i -> j / 8 = i / 8 -> i mod 8 <> j mod 8.
Proof.
  intros Hne Hq Hr.
  pose proof (Z.div_mod i 8). pose proof (Z.div_mod j 8). lia.
Qed.

Lemma CHECK_BIT_spec (l : list Z) (i : Z) :
  0 <= i < 8 * Z.of_nat (length l) ->
  exists v : Z,
    CHECK_BIT (Some l) i = Done v false /\ (v = 0 <-> bit_of l i = false).
Proof.
  intros Hi. destruct (slot_in_range l i Hi) as (Hq & Hlt & Hr).
  unfold CHECK_BIT. rewrite load_in_range, bind_done by done.
  eexists. split; [reflexivity |]. unfold bit_of. apply masked_zero. lia.
Qed.

Lemma SET_BIT_spec (l : list Z) (i : Z) :
  0 <= i < 8 * Z.of_nat (length l) ->
  exists l' : list Z,
    SET_BIT (Some l) i = Done (Some l') false
    /\ length l' = length l
    /\ bit_of l' i = true
    /\ forall j, 0 <= j -> j <> i -> bit_of l' j = bit_of l j.
Proof.
  intros Hi. destruct (slot_in_range l i Hi) as (Hq & Hlt & Hr).
  unfold SET_BIT. rewrite load_in_range, bind_done by done.
  rewrite store_in_range by done.
  eexists. split; [reflexivity |]. split; [apply length_insert |]. split.
  - rewrite bit_of_insert by lia. rewrite bool_decide_eq_true_2 by done.
    rewrite set_bits by lia. rewrite bool_decide_eq_true_2 by done.
    apply orb_true_r.
  - intros j Hj Hne. rewrite bit_of_insert by lia.
    case_bool_decide as Hsame; [| done].
    assert (0 <= j mod 8 < 8) by (apply Z.mod_pos_bound; lia).
    rewrite set_bits by lia.
    rewrite bool_decide_eq_false_2 by by apply same_slot_other_bit.
    rewrite orb_false_r. unfold bit_of. by rewrite Hsame.
Qed.

Lemma CLEAR_BIT_spec (l : list Z) (i : Z) :
  0 <= i < 8 * Z.of_nat (length l) ->
  exists l' : list Z,
    CLEAR_BIT (Some l) i = Done (Some l') false
    /\ length l' = length l
    /\ bit_of l' i = false
    /\ forall j, 0 <= j -> j <> i -> bit_of l' j = bit_of l j.
Proof.
  intros Hi. destruct (slot_in_range l i Hi) as (Hq & Hlt & Hr).
  unfold CLEAR_BIT. rewrite load_in_range, bind_done by done.
  rewrite store_in_range by done.
  eexists. split; [reflexivity |]. split; [apply length_insert |]. split.
  - rewrite bit_of_insert by lia. rewrite bool_decide_eq_true_2 by done.
    rewrite cleared_bits by lia. rewrite bool_decide_eq_true_2 by done.
    apply andb_false_r.
  - intros j Hj Hne. rewrite bit_of_insert by lia.
    case_bool_decide as Hsame; [| done].
    assert (0 <= j mod 8 < 8) by (apply Z.mod_pos_bound; lia).
    rewrite cleared_bits by lia.
    rewrite bool_decide_eq_false_2 by by apply same_slot_other_bit.
    rewrite andb_true_r. unfold bit_of. by rewrite Hsame.
Qed.

(** *** [pool_alloc] *)

Lemma size_mul_exact (a b : Z) :
  is_size (a * b) -> size_mul a b = Done (a * b) false.
Proof.
  intros H. unfold size_mul. rewrite size_wrap_small by done.
  rewrite bool_decide_eq_false_2; [done | unfold is_size in H; lia].
Qed.

Lemma with_ledger_same (p : pool_t) (l : list Z) :
  ledger p = Some l -> with_ledger p (Some l) = p.
Proof. destruct p; simpl; intros ->; done. Qed.

(** The scan from [i] over [todo] indices either finds every bit set and
    returns [NULL], or stops at the first clear bit [k], sets it and
    returns the address of chunk [k]. *)
Lemma pool_alloc_from_spec (todo : nat) :
  forall (i : Z) (p : pool_t) (l : list Z),
    ledger p = Some l -> 0 <= i ->
    i + Z.of_nat todo <= 8 * Z.of_nat (length l) ->
    0 <= chunk_size p -> (i + Z.of_nat todo) * chunk_size p <= SIZE_MOD ->
    (pool_alloc_from todo i p = Done (NULL, Some p) false
     /\ forall j, i <= j < i + Z.of_nat todo -> bit_of l j = true)
    \/ (exists (k : Z) (l' : list Z),
         i <= k < i + Z.of_nat todo
         /\ bit_of l k = false
         /\ (forall j, i <= j < k -> bit_of l j = true)
         /\ pool_alloc_from todo i p
            = Done (data p + k * chunk_size p,
                    Some (with_ledger p (Some l'))) false
         /\ length l' = length l
         /\ bit_of l' k = true
         /\ forall j, 0 <= j -> j <> k -> bit_of l' j = bit_of l j).
Proof.
  induction todo as [| todo IH]; intros i p l Hl Hi Hcover Hcs Hfit.
  - left. split; [reflexivity | intros; lia].
  - cbn [pool_alloc_from]. rewrite Hl.
    destruct (CHECK_BIT_spec l i) as (v & Hcheck & Hv); [lia |].
    rewrite Hcheck, bind_done. case_bool_decide as Hfree.
    + right. destruct (SET_BIT_spec l i) as (l' & Hset & Hlen & Hon & Hoff);
        [lia |].
      assert (is_size (i * chunk_size p)) as Hoffset.
      { unfold is_size. rewrite SIZE_MOD_eq in *. split; [nia |].
        destruct (decide (chunk_size p = 0)) as [-> | ?]; [lia | nia]. }
      exists i, l'. rewrite Hset, bind_done.
      rewrite size_mul_exact, bind_done by done.
      split; [lia |]. split; [by apply Hv |]. split; [intros; lia |]. done.
    + assert (bit_of l i = true) as Hset.
      { destruct (bit_of l i); [done |]. by destruct Hfree; apply Hv. }
      destruct (IH (i + 1) p l) as [[Hrun Hall] | (k & l' & Hk & Hclear & Hbefore & Hrun & Hrest)];
        [done | lia | lia | done | nia | |].
      * left. split; [done |]. intros j Hj.
        destruct (decide (j = i)) as [-> | ?]; [done | apply Hall; lia].
      * right. exists k, l'. split; [lia |]. split; [done |].
        split; [| done]. intros j Hj.
        destruct (decide (j = i)) as [-> | ?]; [done | apply Hbefore; lia].
Qed.

(** C7. On a pool handle, [pool_alloc] returns the address of the chunk
    with the smallest index whose ledger bit is clear and sets that bit
    and no other; it returns [NULL], leaving the pool as it was, exactly
    when the bit of every chunk is set. *)
Theorem pool_alloc_first_free (p : pool_t) :
  handle_ok p ->
  exists (r : Z) (p' : pool_t),
    pool_alloc (Some p) = Done (r, Some p') false
    /\ (r = NULL <->
        forall i, 0 <= i < n_chunks p -> ledger_bit p i = true)
    /\ (r = NULL -> p' = p)
    /\ (r <> NULL ->
        exists i : Z,
          0 <= i < n_chunks p
          /\ ledger_bit p i = false
          /\ (forall j, 0 <= j < i -> ledger_bit p j = true)
          /\ r = data p + i * chunk_size p
          /\ ledger_bit p' i = true
          /\ (forall j, 0 <= j -> j <> i -> ledger_bit p' j = ledger_bit p j)
          /\ chunk_size p' = chunk_size p
          /\ n_chunks p' = n_chunks p
          /\ data p' = data p).
Proof.
  intros (Hd & [Hcs _] & [Hn _] & Hspace & l & Hl & Hcover).
  unfold pool_alloc, ledger_bit, NULL in *. rewrite Hl.
  destruct (pool_alloc_from_spec (Z.to_nat (n_chunks p)) 0 p l)
    as [[Hrun Hall] | (k & l' & Hk & Hclear & Hbefore & Hrun & Hlen & Hon & Hoff)];
    [done | lia | lia | done | nia | |].
  - exists 0, p. split; [done |]. split; [| split; [done | done]].
    split; [| done]. intros _ i Hi. apply Hall. lia.
  - assert (0 <= k * chunk_size p) by nia.
    eexists _, _. split; [exact Hrun |]. split; [| split].
    + split; [lia |]. intros Hall.
      specialize (Hall k). rewrite Hclear in Hall.
      assert (false = true) by (apply Hall; lia). done.
    + intros ?; lia.
    + intros _. exists k. simpl.
      repeat split; first [done | lia | intros j Hj; apply Hbefore; lia].
Qed.

Lemma two_of_four_ok : handle_ok two_of_four.
Proof.
  unfold handle_ok, two_of_four. simpl.
  repeat split; try size_facts. exists [3]. split; [reflexivity | simpl; lia].
Defined.

Lemma pool_alloc_first_free_witness :
  exists (r : Z) (p' : pool_t),
    pool_alloc (Some two_of_four) = Done (r, Some p') false
    /\ (r = NULL <->
        forall i, 0 <= i < n_chunks two_of_four ->
                  ledger_bit two_of_four i = true).
Proof.
  destruct (pool_alloc_first_free two_of_four two_of_four_ok)
    as (r & p' & Hrun & Hnull & _).
  exists r, p'. split; [exact Hrun | exact Hnull].
Defined.

(** *** [pool_free] *)

(** C9. On a pool handle with [chunk_size > 0], [pool_free] computes
    [index = (chunk - data) / chunk_size] (the difference taken in
    [size_t]: it is the exact quotient for a pointer at or above the
    buffer and falls outside the pool for a pointer below it) and clears
    ledger bit [index], and no other, when [index < n_chunks]; with a null
    pool, a null chunk or [index >= n_chunks] the call changes nothing. *)
Theorem pool_free_spec (p : pool_t) (chunk : Z) :
  handle_ok p -> 0 < chunk_size p -> is_size chunk ->
  pool_free None chunk = Done None false
  /\ pool_free (Some p) NULL = Done (Some p) false
  /\ (chunk <> NULL ->
      (data p <= chunk ->
       free_index p chunk = (chunk - data p) / chunk_size p)
      /\ (chunk < data p -> n_chunks p <= free_index p chunk)
      /\ exists (p' : pool_t) (w : bool),
           pool_free (Some p) chunk = Done (Some p') w
           /\ chunk_size p' = chunk_size p
           /\ n_chunks p' = n_chunks p
           /\ data p' = data p
           /\ (free_index p chunk < n_chunks p ->
               ledger_bit p' (free_index p chunk) = false
               /\ forall j, 0 <= j -> j <> free_index p chunk ->
                            ledger_bit p' j = ledger_bit p j)
           /\ (n_chunks p <= free_index p chunk -> p' = p)).
Proof.
  intros (Hd & _ & [Hn _] & Hspace & l & Hl & Hcover) Hcs [Hc0 Hc].
  unfold NULL in *. split; [| split].
  - unfold pool_free. case_bool_decide; done.
  - unfold pool_free. by rewrite bool_decide_eq_true_2.
  - intros Hnn.
    assert (0 <= free_index p chunk) as Hidx.
    { unfold free_index. apply Z.div_pos; [apply size_wrap_range | lia]. }
    split; [| split].
    + intros Hge. unfold free_index. rewrite size_wrap_small; [done |].
      unfold is_size. lia.
    + intros Hlt. unfold free_index, size_wrap.
      assert (0 <= n_chunks p * chunk_size p) by nia.
      rewrite <- (Z.mod_unique (chunk - data p) SIZE_MOD (-1)
                    (chunk - data p + SIZE_MOD)) by lia.
      apply Z.div_le_lower_bound; [done | lia].
    + unfold pool_free, NULL.
      rewrite (bool_decide_eq_false_2 (chunk = 0)) by done.
      rewrite (bool_decide_eq_false_2 (data p = 0)) by lia.
      rewrite (bool_decide_eq_false_2 (ledger p = None)) by (by rewrite Hl).
      unfold size_sub. rewrite bind_flag.
      unfold size_div. rewrite (bool_decide_eq_false_2 (chunk_size p = 0)) by lia.
      rewrite bind_done.
      change (size_wrap (chunk - data p) / chunk_size p)
        with (free_index p chunk).
      case_bool_decide as Hin.
      * rewrite Hl.
        destruct (CLEAR_BIT_spec l (free_index p chunk))
          as (l' & Hclear & Hlen & Hoff & Hrest); [lia |].
        rewrite Hclear, bind_done.
        eexists _, _. split; [reflexivity |]. simpl.
        unfold ledger_bit. rewrite Hl. simpl.
        repeat split; first [done | lia].
      * eexists _, _. split; [reflexivity |].
        repeat split; first [done | lia].
Qed.

Lemma pool_free_spec_witness :
  exists (p' : pool_t) (w : bool),
    pool_free (Some two_of_four) 4112 = Done (Some p') w
    /\ (free_index two_of_four 4112 < n_chunks two_of_four ->
        ledger_bit p' (free_index two_of_four 4112) = false).
Proof.
  destruct (pool_free_spec two_of_four 4112 two_of_four_ok) as (_ & _ & H);
    [simpl; lia | size_facts |].
  destruct H as (_ & _ & p' & w & Hrun & _ & _ & _ & Hin & _);
    [unfold NULL; lia |].
  exists p', w. split; [exact Hrun | intros Hlt; exact (proj1 (Hin Hlt))].
Defined.

(** *** Pools without chunks *)

Lemma pool_init_handle (gh gl : bool) (gd cs n : Z) (p : pool_t) (w : bool) :
  pool_init gh gd gl cs n = Done (Some p) w ->
  chunk_size p = cs /\ n_chunks p = n /\ data p = gd /\ gd <> NULL.
Proof.
  unfold pool_init. destruct gh; cbn [negb]; [| done].
  case_bool_decide as Hgd; [done |].
  unfold size_add. rewrite bind_flag. destruct gl; simpl; [| done].
  intros [= <- _]. done.
Qed.

(** What [pool_init] returns when the system grants a buffer inside the
    address space is a pool handle in the sense of [handle_ok]. *)
Lemma pool_init_ok (gh gl : bool) (gd cs n : Z) (p : pool_t) (w : bool) :
  is_size cs -> 0 <= n -> n + 7 < SIZE_MOD ->
  0 <= gd -> gd + n * cs <= SIZE_MOD ->
  pool_init gh gd gl cs n = Done (Some p) w ->
  handle_ok p.
Proof.
  intros Hcs Hn Hpad Hgd Hfit. unfold pool_init.
  destruct gh; cbn [negb]; [| done]. case_bool_decide as Hnull; [done |].
  rewrite size_add_exact, bind_done by (unfold is_size; lia).
  destruct gl; simpl; [| done]. intros [= <- _]. unfold handle_ok. simpl.
  unfold NULL in *. split; [lia |]. split; [done |].
  split; [unfold is_size; lia |]. split; [done |].
  eexists. split; [reflexivity |]. rewrite length_replicate.
  assert (0 <= (n + 7) / 8) by (apply Z.div_pos; lia).
  pose proof (Z.div_mod (n + 7) 8). pose proof (Z.mod_pos_bound (n + 7) 8).
  lia.
Qed.

Lemma empty_pool_alloc (p : pool_t) :
  n_chunks p = 0 -> pool_alloc (Some p) = Done (NULL, Some p) false.
Proof. intros Hn. unfold pool_alloc. by rewrite Hn. Qed.

(** A call on a pool without chunks leaves the pool as it is, unless it
    is a [pool_free] that divides by a zero [chunk_size]. *)
Lemma empty_pool_step (p : pool_t) (o : op) :
  n_chunks p = 0 -> 0 <= chunk_size p ->
  (exists w, step (Some p) o = Done (Some p) w)
  \/ (chunk_size p = 0 /\ step (Some p) o = Trap DivByZero).
Proof.
  intros Hn Hcs. destruct o as [| chunk]; cbn [step].
  - left. rewrite empty_pool_alloc, bind_done by done. by eexists.
  - unfold pool_free.
    case_bool_decide; [left; by eexists |].
    case_bool_decide; [left; by eexists |].
    case_bool_decide; [left; by eexists |].
    unfold size_sub. rewrite bind_flag. unfold size_div.
    case_bool_decide as Hzero; [right; split; [done | reflexivity] |].
    rewrite bind_done.
    assert (0 <= size_wrap (chunk - data p) / chunk_size p).
    { apply Z.div_pos; [apply size_wrap_range | lia]. }
    rewrite bool_decide_eq_false_2 by lia. left. by eexists.
Qed.

Lemma empty_pool_run (ops : list op) (p : pool_t) :
  n_chunks p = 0 -> 0 <= chunk_size p ->
  (exists w, run (Some p) ops = Done (Some p) w)
  \/ (chunk_size p = 0 /\ run (Some p) ops = Trap DivByZero).
Proof.
  intros Hn Hcs. induction ops as [| o ops IH]; cbn [run].
  - left. by eexists.
  - destruct (empty_pool_step p o Hn Hcs) as [[w Hstep] | [Hzero Hstep]];
      rewrite Hstep.
    + rewrite bind_flag.
      destruct IH as [[w' Hrun] | [Hzero Hrun]]; rewrite Hrun.
      * left. by eexists.
      * by right.
    + right. split; [done | reflexivity].
Qed.

(** Against C2 as stated: a pool made with [chunk_size = 0] and four
    chunks is not empty, its first [pool_alloc] returns the buffer. *)
Lemma zero_size_pool_allocates :
  exists (p p' : pool_t) (r : Z),
    pool_init true 4096 true 0 4 = Done (Some p) false
    /\ pool_alloc (Some p) = Done (r, Some p') false
    /\ r <> NULL.
Proof.
  eexists _, _, _. split; [vm_compute; reflexivity |].
  split; [vm_compute; reflexivity | done].
Qed.

(** C2, amended. A pool made by [pool_init] with [n_chunks = 0] is empty
    for good: after any sequence of [pool_alloc] and [pool_free] calls
    that runs to its end, [pool_alloc] returns [NULL] and leaves the pool
    as it is; with [chunk_size > 0] every such sequence runs to its
    end. *)
Theorem empty_pool_stays_empty
    (gh gl : bool) (gd cs : Z) (w : bool) (p : pool_t) (ops : list op) :
  is_size cs ->
  pool_init gh gd gl cs 0 = Done (Some p) w ->
  (forall h, result (run (Some p) ops) = Some h ->
             pool_alloc h = Done (NULL, h) false)
  /\ (0 < cs -> finished (run (Some p) ops)).
Proof.
  intros [Hcs _] Hinit.
  apply pool_init_handle in Hinit as (Hsize & Hn & _).
  destruct (empty_pool_run ops p) as [[w' Hrun] | [Hzero Hrun]];
    [done | lia | |]; rewrite Hrun; simpl.
  - split; [| done]. intros h [= <-]. by apply empty_pool_alloc.
  - split; [done | lia].
Qed.

Lemma empty_pool_stays_empty_witness :
  pool_alloc (Some {| chunk_size := 16; n_chunks := 0; data := 4096;
                      ledger := Some [] |})
  = Done (NULL, Some {| chunk_size := 16; n_chunks := 0; data := 4096;
                        ledger := Some [] |}) false.
Proof.
  refine (proj1 (empty_pool_stays_empty true true 4096 16 false
                   {| chunk_size := 16; n_chunks := 0; data := 4096;
                      ledger := Some [] |}
                   [Alloc; Free 4100; Alloc] _ _) _ _).
  - size_facts.
  - vm_compute. reflexivity.
  - vm_compute. reflexivity.
Defined.

End PoolFacts.

(** ** Null handles *)

(** C3. [pool_alloc] on a null pool reads [pool->n_chunks] and traps,
    where every other operation tests the handle first: the arena
    operations, [pool_free], [pool_deinit] and [mem_stack_free] do
    nothing, and [mem_stack_alloc] and [mem_stack_pop] leave through a
    bare [return;] that hands back no value. *)
Theorem null_handle_behaviour (bytes chunk : Z) :
  Pool.pool_alloc None = Trap NullDeref
  /\ Stack.mem_stack_alloc None bytes = Done (NoValue, None) false
  /\ Stack.mem_stack_pop None bytes = Done (NoValue, None) false
  /\ Arena.arena_alloc None bytes = Done (NULL, None) false
  /\ Arena.arena_reset None = None
  /\ Arena.arena_deinit None = []
  /\ Pool.pool_free None chunk = Done None false
  /\ Pool.pool_deinit None = []
  /\ Stack.mem_stack_free None = [].
Proof.
  repeat split. unfold Pool.pool_free. case_bool_decide; done.
Qed.

(** ** Laws of the arena *)

Module ArenaLaws.
Import Arena ArenaSpec ArenaFacts.

(** Requests that fit are served back to back from the cursor on, and the
    cursor ends past the last of them. *)
Lemma alloc_all_exact (reqs : list Z) :
  forall a : arena_t,
    is_size (capacity a) -> 0 <= size a ->
    Forall (fun b => 0 <= b) reqs -> size a + total reqs <= capacity a ->
    alloc_all (Some a) reqs
    = Done ((fun o => data a + o) <$> starts (size a) reqs,
            Some {| data := data a; size := size a + total reqs;
                    capacity := capacity a |}) false.
Proof.
  induction reqs as [| b reqs IH]; intros a Hc Hs Hreqs Hsum.
  - destruct a as [d n c]. cbn. by rewrite Z.add_0_r.
  - inversion Hreqs as [| ? ? Hb Hreqs']; subst. cbn [total] in Hsum.
    assert (0 <= total reqs) as Htot.
    { clear -Hreqs'. induction Hreqs'; simpl; lia. }
    cbn [alloc_all]. rewrite arena_alloc_fits by (done || lia).
    rewrite bind_done.
    rewrite (IH {| data := data a; size := size a + b;
                   capacity := capacity a |})
      by (done || (cbn; lia)).
    rewrite bind_done. cbn. by rewrite Z.add_assoc.
Qed.

(** X1. After any sequence of allocations and resets on an arena made by
    [arena_init], one more [arena_reset] gives back the handle as
    [arena_init] made it, and a request for the whole capacity is then
    served at the start of the buffer. *)
Theorem reset_restores_fresh_arena
    (gh : bool) (d C : Z) (a0 : arena_t) (ops : list op) :
  is_size C -> arena_init gh d C = Some a0 -> Forall op_ok ops ->
  exists a : arena_t,
    run (Some a0) ops = Done (Some a) false
    /\ arena_reset (Some a) = Some a0
    /\ arena_alloc (arena_reset (Some a)) C
       = Done (d, Some {| data := d; size := C; capacity := C |}) false.
Proof.
  intros HC Hinit Hops.
  unfold arena_init in Hinit. destruct gh; cbn [negb] in Hinit; [| done].
  case_bool_decide; [done |]. injection Hinit as <-.
  destruct (arena_run_invariant ops
              {| data := d; size := 0; capacity := C |})
    as (a & Hrun & _ & Hcap & Hdata); [done | | done |].
  { cbn. unfold is_size in HC. lia. }
  cbn in Hcap, Hdata. exists a. split; [done |].
  assert (arena_reset (Some a)
          = Some {| data := d; size := 0; capacity := C |}) as Hreset.
  { cbn. by rewrite Hcap, Hdata. }
  split; [done |]. rewrite Hreset.
  rewrite arena_alloc_fits; cbn; [| done | lia | unfold is_size in HC; lia | lia].
  by rewrite Z.add_0_r.
Qed.

Lemma reset_restores_fresh_arena_witness :
  exists a : arena_t,
    run (Some {| data := 4096; size := 0; capacity := 10 |})
        [Alloc 4; Alloc 9; Reset; Alloc 10] = Done (Some a) false
    /\ arena_reset (Some a)
       = Some {| data := 4096; size := 0; capacity := 10 |}
    /\ arena_alloc (arena_reset (Some a)) 10
       = Done (4096, Some {| data := 4096; size := 10; capacity := 10 |})
              false.
Proof.
  apply (reset_restores_fresh_arena true 4096 10
           {| data := 4096; size := 0; capacity := 10 |}
           [Alloc 4; Alloc 9; Reset; Alloc 10]).
  - size_facts.
  - reflexivity.
  - repeat constructor; size_facts.
Defined.

(** Whatever the requests, the granted ones are laid out back to back
    from the cursor on and end at the final cursor. *)
Lemma granted_stacked (reqs : list Z) :
  forall a : arena_t,
    handle_ok a -> size a <= capacity a -> Forall (fun b => 0 <= b) reqs ->
    exists (ps : list Z) (a' : arena_t),
      alloc_all (Some a) reqs = Done (ps, Some a') false
      /\ length ps = length reqs
      /\ stacked (size a) (granted (data a) ps reqs)
      /\ size a' = size a + total (len <$> granted (data a) ps reqs)
      /\ size a' <= capacity a /\ capacity a' = capacity a.
Proof.
  induction reqs as [| b reqs IH]; intros a Hok Hfit Hreqs.
  - exists [], a. cbn. repeat split; try done; lia.
  - inversion Hreqs as [| ? ? Hb Hreqs']; subst.
    pose proof Hok as (Hd & [Hs _] & Hc). unfold NULL in Hd.
    cbn [alloc_all].
    destruct (decide (size a + b <= capacity a)) as [Hroom | Hfull].
    + rewrite arena_alloc_fits by (done || lia). rewrite bind_done.
      destruct (IH {| data := data a; size := size a + b;
                      capacity := capacity a |})
        as (ps & a' & Hrun & Hlen & Hst & Hsize & Hcap & Hcap');
        [| cbn; lia | done |].
      { unfold handle_ok, is_size in *. cbn. lia. }
      cbn [data size capacity] in *. rewrite Hrun, bind_done.
      exists (data a + size a :: ps), a'. split; [done |].
      split; [cbn; by rewrite Hlen |].
      cbn [granted]. rewrite bool_decide_eq_false_2 by (unfold NULL; lia).
      rewrite fmap_cons. cbn [stacked total region_of offset len].
      replace (data a + size a - data a) with (size a) by lia.
      repeat split; try done; lia.
    + rewrite arena_alloc_full by (done || lia). rewrite bind_done.
      destruct (IH a) as (ps & a' & Hrun & Hlen & Hst & Hsize & Hcap & Hcap');
        [done | done | done |].
      rewrite Hrun, bind_done.
      exists (NULL :: ps), a'. split; [done |].
      split; [cbn; by rewrite Hlen |].
      cbn [granted]. rewrite bool_decide_eq_true_2 by done. done.
Qed.

(** X19. Whatever is requested of an arena within its capacity, fitting
    or not, every call returns and no [size_t] operation wraps; the
    regions of the granted requests are pairwise disjoint and lie between
    the cursor at the start and the capacity: a later allocation never
    overlaps an earlier one. *)
Theorem granted_regions_never_overlap (a : arena_t) (reqs : list Z) :
  handle_ok a -> size a <= capacity a -> Forall (fun b => 0 <= b) reqs ->
  exists (ps : list Z) (a' : arena_t),
    alloc_all (Some a) reqs = Done (ps, Some a') false
    /\ length ps = length reqs
    /\ pairwise_disjoint (granted (data a) ps reqs)
    /\ Forall (within (capacity a)) (granted (data a) ps reqs)
    /\ Forall (fun r => size a <= offset r) (granted (data a) ps reqs).
Proof.
  intros Hok Hfit Hreqs.
  destruct (granted_stacked reqs a Hok Hfit Hreqs)
    as (ps & a' & Hrun & Hlen & Hst & Hsize & Hcap & _).
  pose proof Hok as (_ & [Hs _] & _).
  exists ps, a'. split; [done |]. split; [done |].
  split; [by eapply stacked_pairwise_disjoint |].
  split; [eapply stacked_within; [| exact Hst |]; lia |].
  apply Forall_lookup. intros i r Hr. by eapply stacked_above.
Qed.

Lemma granted_regions_never_overlap_witness :
  exists (ps : list Z) (a' : arena_t),
    alloc_all (Some {| data := 4096; size := 2; capacity := 10 |}) [5; 9; 3; 1]
    = Done (ps, Some a') false
    /\ length ps = length [5; 9; 3; 1]
    /\ pairwise_disjoint (granted 4096 ps [5; 9; 3; 1])
    /\ Forall (within 10) (granted 4096 ps [5; 9; 3; 1])
    /\ Forall (fun r => 2 <= offset r) (granted 4096 ps [5; 9; 3; 1]).
Proof.
  apply (granted_regions_never_overlap
           {| data := 4096; size := 2; capacity := 10 |} [5; 9; 3; 1]).
  - repeat split; size_facts.
  - cbn. lia.
  - repeat constructor; lia.
Defined.

End ArenaLaws.

(** ** Laws of the stack *)

Module StackLaws.
Import Stack StackSpec StackFacts.

Lemma size_add_wrapped (a b : Z) :
  SIZE_MOD <= a + b < 2 * SIZE_MOD ->
  size_add a b = Done (a + b - SIZE_MOD) true.
Proof.
  intros H. unfold size_add, size_wrap.
  rewrite <- (Z.mod_unique (a + b) SIZE_MOD 1 (a + b - SIZE_MOD)) by lia.
  by rewrite bool_decide_eq_true_2 by lia.
Qed.

Lemma mem_stack_alloc_over (s : MemStack) (bytes : Z) :
  is_size (size s + bytes) -> size s + bytes > capacity s ->
  mem_stack_alloc (Some s) bytes = Done (Value NULL, Some s) false.
Proof.
  intros Hsum Hover. unfold mem_stack_alloc.
  rewrite size_add_exact, bind_done by done.
  by rewrite bool_decide_eq_true_2.
Qed.

Lemma stack_alloc_all_exact (reqs : list Z) :
  forall s : MemStack,
    is_size (capacity s) -> 0 <= size s ->
    Forall (fun b => 0 <= b) reqs -> size s + total reqs <= capacity s ->
    alloc_all (Some s) reqs
    = Done ((fun o => Value (data s + o)) <$> starts (size s) reqs,
            Some {| data := data s; size := size s + total reqs;
                    capacity := capacity s |}) false.
Proof.
  induction reqs as [| b reqs IH]; intros s Hc Hs Hreqs Hsum.
  - destruct s as [d n c]. cbn. by rewrite Z.add_0_r.
  - inversion Hreqs as [| ? ? Hb Hreqs']; subst. cbn [total] in Hsum.
    assert (0 <= total reqs) as Htot.
    { clear -Hreqs'. induction Hreqs'; simpl; lia. }
    cbn [alloc_all]. rewrite mem_stack_alloc_fits by (done || lia).
    rewrite bind_done.
    rewrite (IH {| data := data s; size := size s + b;
                   capacity := capacity s |})
      by (done || (cbn; lia)).
    rewrite bind_done. cbn. by rewrite Z.add_assoc.
Qed.

(** X2. When [size + bytes] does not wrap, [mem_stack_alloc] is exact: it
    fails, leaving the stack as it is, when the sum exceeds the capacity,
    and otherwise returns the address at the cursor and adds [bytes] to
    the cursor. *)
Theorem mem_stack_alloc_exact (s : MemStack) (bytes : Z) :
  0 <= size s -> 0 <= bytes -> size s + bytes < SIZE_MOD ->
  (size s + bytes > capacity s ->
     mem_stack_alloc (Some s) bytes = Done (Value NULL, Some s) false)
  /\ (size s + bytes <= capacity s ->
     mem_stack_alloc (Some s) bytes
     = Done (Value (data s + size s),
             Some {| data := data s; size := size s + bytes;
                     capacity := capacity s |}) false).
Proof.
  intros Hs Hb Hsum. split; intros Hcmp.
  - apply mem_stack_alloc_over; [unfold is_size; lia | done].
  - unfold mem_stack_alloc.
    rewrite size_add_exact, bind_done by (unfold is_size; lia).
    rewrite bool_decide_eq_false_2 by lia. by rewrite bind_done.
Qed.

Lemma mem_stack_alloc_exact_witness :
  mem_stack_alloc (Some one_of_ten) 10 = Done (Value NULL, Some one_of_ten) false.
Proof.
  refine (proj1 (mem_stack_alloc_exact one_of_ten 10 _ _ _) _);
    cbn; rewrite ?SIZE_MOD_eq; lia.
Defined.

(** X3. When [size + bytes] wraps, [mem_stack_alloc] compares the wrapped
    sum [size + bytes - 2^64], which is below the cursor: if it is at most
    the capacity the call succeeds, returns the address at the cursor and
    moves the cursor back to the wrapped sum; otherwise it fails. *)
Theorem mem_stack_alloc_wrapped (s : MemStack) (bytes : Z) :
  is_size (size s) -> is_size bytes -> SIZE_MOD <= size s + bytes ->
  size s + bytes - SIZE_MOD < size s
  /\ (size s + bytes - SIZE_MOD <= capacity s ->
     mem_stack_alloc (Some s) bytes
     = Done (Value (data s + size s),
             Some {| data := data s; size := size s + bytes - SIZE_MOD;
                     capacity := capacity s |}) true)
  /\ (size s + bytes - SIZE_MOD > capacity s ->
     mem_stack_alloc (Some s) bytes = Done (Value NULL, Some s) true).
Proof.
  intros [Hs0 Hs] [Hb0 Hb] Hwrap. split; [lia |].
  split; intros Hcmp; unfold mem_stack_alloc.
  - rewrite !size_add_wrapped by lia. rewrite bind_flag.
    by rewrite bool_decide_eq_false_2 by lia.
  - rewrite !size_add_wrapped by lia. rewrite bind_flag.
    by rewrite bool_decide_eq_true_2 by lia.
Qed.

Lemma mem_stack_alloc_wrapped_witness :
  mem_stack_alloc (Some one_of_ten) SIZE_MAX
  = Done (Value (4096 + 1),
          Some {| data := 4096; size := 1 + SIZE_MAX - SIZE_MOD;
                  capacity := 10 |}) true.
Proof.
  refine (proj1 (proj2 (mem_stack_alloc_wrapped one_of_ten SIZE_MAX
                          _ _ _)) _); cbn; size_facts.
Defined.

(** X4. An allocation that fits is undone by popping the same number of
    bytes: after [mem_stack_pop] the stack is the one before the
    allocation. *)
Theorem alloc_then_pop (s : MemStack) (bytes : Z) :
  is_size (capacity s) -> 0 <= size s -> 0 <= bytes ->
  size s + bytes <= capacity s ->
  exists s1 : MemStack,
    mem_stack_alloc (Some s) bytes
    = Done (Value (data s + size s), Some s1) false
    /\ mem_stack_pop (Some s1) bytes = Done (NoValue, Some s) false.
Proof.
  intros Hc Hs Hb Hfit. eexists. split.
  - by apply mem_stack_alloc_fits.
  - unfold mem_stack_pop. cbn [size data capacity].
    rewrite bool_decide_eq_false_2 by lia.
    rewrite size_sub_exact by (unfold is_size in *; lia).
    rewrite bind_done. destruct s as [d n c]. cbn.
    by replace (n + bytes - bytes) with n by lia.
Qed.

Lemma alloc_then_pop_witness :
  exists s1 : MemStack,
    mem_stack_alloc (Some one_of_ten) 9
    = Done (Value (4096 + 1), Some s1) false
    /\ mem_stack_pop (Some s1) 9 = Done (NoValue, Some one_of_ten) false.
Proof.
  apply (alloc_then_pop one_of_ten 9); cbn; size_facts.
Defined.

(** X5. After a pop of [bytes <= size] on a stack within its capacity, a
    request of [bytes] is served at the address the pop gave up,
    [data + size - bytes], and the stack is again the one before the
    pop. *)
Theorem pop_then_alloc (s : MemStack) (bytes : Z) :
  is_size (capacity s) -> size s <= capacity s -> 0 <= bytes <= size s ->
  exists s1 : MemStack,
    mem_stack_pop (Some s) bytes = Done (NoValue, Some s1) false
    /\ mem_stack_alloc (Some s1) bytes
       = Done (Value (data s + (size s - bytes)), Some s) false.
Proof.
  intros Hc Hfit Hb. eexists. split.
  - unfold mem_stack_pop. rewrite bool_decide_eq_false_2 by lia.
    rewrite size_sub_exact by (unfold is_size in *; lia).
    by rewrite bind_done.
  - rewrite mem_stack_alloc_fits; cbn [size data capacity];
      [| done | lia | lia | lia].
    destruct s as [d n c]. cbn.
    by replace (n - bytes + bytes) with n by lia.
Qed.

Lemma pop_then_alloc_witness :
  exists s1 : MemStack,
    mem_stack_pop (Some one_of_ten) 1 = Done (NoValue, Some s1) false
    /\ mem_stack_alloc (Some s1) 1
       = Done (Value (4096 + (1 - 1)), Some one_of_ten) false.
Proof.
  apply (pop_then_alloc one_of_ten 1); cbn; size_facts.
Defined.

(** X6. A batch of requests that fits is released by one pop of their
    total: after the allocations, [mem_stack_pop] of the sum of the
    requests restores the stack. *)
Theorem pop_releases_batch (s : MemStack) (reqs : list Z) :
  is_size (capacity s) -> 0 <= size s ->
  Forall (fun b => 0 <= b) reqs -> size s + total reqs <= capacity s ->
  exists (rs : list (retval Z)) (s1 : MemStack),
    alloc_all (Some s) reqs = Done (rs, Some s1) false
    /\ mem_stack_pop (Some s1) (total reqs) = Done (NoValue, Some s) false.
Proof.
  intros Hc Hs Hreqs Hfit.
  assert (0 <= total reqs) as Htot.
  { clear -Hreqs. induction Hreqs; simpl; lia. }
  eexists _, _. split; [by apply stack_alloc_all_exact |].
  unfold mem_stack_pop. cbn [size data capacity].
  rewrite bool_decide_eq_false_2 by lia.
  rewrite size_sub_exact by (unfold is_size in *; lia).
  rewrite bind_done. destruct s as [d n c]. cbn.
  by replace (n + total reqs - total reqs) with n by lia.
Qed.

Lemma pop_releases_batch_witness :
  exists (rs : list (retval Z)) (s1 : MemStack),
    alloc_all (Some one_of_ten) [2; 0; 5] = Done (rs, Some s1) false
    /\ mem_stack_pop (Some s1) (total [2; 0; 5])
       = Done (NoValue, Some one_of_ten) false.
Proof.
  apply (pop_releases_batch one_of_ten [2; 0; 5]).
  - cbn. size_facts.
  - cbn. lia.
  - repeat constructor; lia.
  - cbn. lia.
Defined.

End StackLaws.

(** X7. On a fresh arena or stack, requests that fit are packed: the
    addresses returned are the buffer address plus the running sum of the
    earlier requests, with no padding, and the cursor ends at the sum of
    all requests. *)
Theorem allocations_are_packed (C d : Z) (reqs : list Z) :
  is_size C -> d <> NULL ->
  Forall (fun b => 0 <= b) reqs -> total reqs <= C ->
  ArenaSpec.alloc_all (Arena.arena_init true d C) reqs
  = Done ((fun o => d + o) <$> starts 0 reqs,
          Some {| Arena.data := d; Arena.size := total reqs;
                  Arena.capacity := C |}) false
  /\ StackSpec.alloc_all (Stack.mem_stack_init true d C) reqs
  = Done ((fun o => Value (d + o)) <$> starts 0 reqs,
          Some {| Stack.data := d; Stack.size := total reqs;
                  Stack.capacity := C |}) false.
Proof.
  intros HC Hd Hreqs Hsum. split.
  - rewrite arena_init_granted by done.
    by rewrite ArenaLaws.alloc_all_exact by (done || (cbn; lia)).
  - rewrite mem_stack_init_granted by done.
    by rewrite StackLaws.stack_alloc_all_exact by (done || (cbn; lia)).
Qed.

Lemma allocations_are_packed_witness :
  ArenaSpec.alloc_all (Arena.arena_init true 4096 10) [3; 0; 7]
  = Done ((fun o => 4096 + o) <$> starts 0 [3; 0; 7],
          Some {| Arena.data := 4096; Arena.size := total [3; 0; 7];
                  Arena.capacity := 10 |}) false.
Proof.
  refine (proj1 (allocations_are_packed 10 4096 [3; 0; 7] _ _ _ _)).
  - size_facts.
  - done.
  - repeat constructor; lia.
  - cbn. lia.
Defined.

(** ** Laws of the chunk pool *)

Module PoolLaws.
Import Pool PoolSpec PoolFacts.

Lemma ledger_bit_eq (p : pool_t) (l : list Z) (i : Z) :
  ledger p = Some l -> ledger_bit p i = bit_of l i.
Proof. intros Hl. unfold ledger_bit. by rewrite Hl. Qed.

Lemma handle_ok_with_ledger (p : pool_t) (l l' : list Z) :
  handle_ok p -> ledger p = Some l -> length l' = length l ->
  handle_ok (with_ledger p (Some l')).
Proof.
  intros (Hd & Hcs & Hn & Hspace & l0 & Hl0 & Hcover) Hl Hlen.
  rewrite Hl in Hl0. injection Hl0 as <-.
  unfold handle_ok. cbn. do 4 (split; [done |]).
  exists l'. split; [done | by rewrite Hlen].
Qed.

(** What [pool_alloc] does on a handle, by cases on the ledger. *)
Lemma pool_alloc_cases (p : pool_t) (l : list Z) :
  handle_ok p -> ledger p = Some l ->
  (pool_alloc (Some p) = Done (NULL, Some p) false
   /\ forall j, 0 <= j < n_chunks p -> bit_of l j = true)
  \/ (exists (k : Z) (l' : list Z),
       0 <= k < n_chunks p
       /\ bit_of l k = false
       /\ (forall j, 0 <= j < k -> bit_of l j = true)
       /\ pool_alloc (Some p)
          = Done (data p + k * chunk_size p,
                  Some (with_ledger p (Some l'))) false
       /\ length l' = length l
       /\ bit_of l' k = true
       /\ forall j, 0 <= j -> j <> k -> bit_of l' j = bit_of l j).
Proof.
  intros (Hd & [Hcs _] & [Hn _] & Hspace & l0 & Hl0 & Hcover) Hl.
  rewrite Hl in Hl0. injection Hl0 as <-. unfold NULL in Hd.
  unfold pool_alloc.
  destruct (pool_alloc_from_spec (Z.to_nat (n_chunks p)) 0 p l)
    as [[Hrun Hall] | (k & l' & Hk & Hrest)];
    [done | lia | lia | done | nia | |].
  - left. split; [done |]. intros j Hj. apply Hall. lia.
  - right. exists k, l'. split; [lia | done].
Qed.

(** What [pool_free] does on a handle with [chunk_size > 0]. *)
Lemma pool_free_cases (p : pool_t) (l : list Z) (chunk : Z) :
  handle_ok p -> ledger p = Some l -> 0 < chunk_size p ->
  ((chunk = NULL \/ n_chunks p <= free_index p chunk)
   /\ exists w, pool_free (Some p) chunk = Done (Some p) w)
  \/ (chunk <> NULL
      /\ 0 <= free_index p chunk < n_chunks p
      /\ exists (l' : list Z) (w : bool),
           CLEAR_BIT (Some l) (free_index p chunk) = Done (Some l') false
           /\ pool_free (Some p) chunk
              = Done (Some (with_ledger p (Some l'))) w
           /\ length l' = length l
           /\ bit_of l' (free_index p chunk) = false
           /\ forall j, 0 <= j -> j <> free_index p chunk ->
                        bit_of l' j = bit_of l j).
Proof.
  intros (Hd & _ & [Hn _] & Hspace & l0 & Hl0 & Hcover) Hl Hcs.
  rewrite Hl in Hl0. injection Hl0 as <-. unfold NULL in *.
  unfold pool_free, NULL.
  case_bool_decide as Hnull; [left; split; [by left | by eexists] |].
  rewrite (bool_decide_eq_false_2 (data p = 0)) by lia.
  rewrite (bool_decide_eq_false_2 (ledger p = None)) by (by rewrite Hl).
  assert (0 <= free_index p chunk) as Hidx.
  { unfold free_index. apply Z.div_pos; [apply size_wrap_range | lia]. }
  unfold size_sub. rewrite bind_flag.
  unfold size_div. rewrite (bool_decide_eq_false_2 (chunk_size p = 0)) by lia.
  rewrite bind_done.
  change (size_wrap (chunk - data p) / chunk_size p)
    with (free_index p chunk).
  case_bool_decide as Hin.
  - right. split; [done |]. split; [lia |]. rewrite Hl.
    destruct (CLEAR_BIT_spec l (free_index p chunk))
      as (l' & Hclear & Hlen & Hoff & Hrest); [lia |].
    exists l'. eexists. rewrite Hclear, bind_done. done.
  - left. split; [right; lia | by eexists].
Qed.

Lemma free_index_inside (p : pool_t) (i d : Z) :
  handle_ok p -> 0 < chunk_size p ->
  0 <= i < n_chunks p -> 0 <= d < chunk_size p ->
  free_index p (data p + i * chunk_size p + d) = i.
Proof.
  intros (Hd & _ & [Hn _] & Hspace & _) Hcs Hi Hdelta. unfold NULL in Hd.
  unfold free_index.
  assert (i * chunk_size p + chunk_size p <= n_chunks p * chunk_size p)
    by nia.
  assert (0 <= i * chunk_size p) by nia.
  rewrite size_wrap_small by (unfold is_size; lia).
  symmetry. apply (Z.div_unique _ _ i d); lia.
Qed.

Lemma bit_of_zeros (m : nat) (i : Z) : bit_of (replicate m 0) i = false.
Proof.
  unfold bit_of. destruct (replicate m 0 !! Z.to_nat (i / 8)) as [b |] eqn:Hb.
  - apply lookup_replicate in Hb as [-> _]. apply Z.bits_0.
  - apply Z.bits_0.
Qed.



(** X9. For an index inside the ledger, [CHECK_BIT] is non-zero after
    [SET_BIT] and zero after [CLEAR_BIT], and neither macro changes the
    length of the ledger. *)
Theorem macros_round_trip (l : list Z) (i : Z) :
  0 <= i < 8 * Z.of_nat (length l) ->
  (exists (l1 : list Z) (v : Z),
     SET_BIT (Some l) i = Done (Some l1) false
     /\ length l1 = length l
     /\ CHECK_BIT (Some l1) i = Done v false /\ v <> 0)
  /\ (exists l0 : list Z,
     CLEAR_BIT (Some l) i = Done (Some l0) false
     /\ length l0 = length l
     /\ CHECK_BIT (Some l0) i = Done 0 false).
Proof.
  intros Hi. split.
  - destruct (SET_BIT_spec l i Hi) as (l1 & Hset & Hlen & Hon & _).
    destruct (CHECK_BIT_spec l1 i) as (v & Hcheck & Hv); [by rewrite Hlen |].
    exists l1, v. repeat split; try done.
    intros Hz. apply Hv in Hz. congruence.
  - destruct (CLEAR_BIT_spec l i Hi) as (l0 & Hclear & Hlen & Hoff & _).
    destruct (CHECK_BIT_spec l0 i) as (v & Hcheck & Hv); [by rewrite Hlen |].
    exists l0. repeat split; try done.
    apply Hv in Hoff. by rewrite Hcheck, Hoff.
Qed.

Lemma macros_round_trip_witness :
  exists l0 : list Z,
    CLEAR_BIT (Some [3; 128]) 15 = Done (Some l0) false
    /\ length l0 = length [3; 128]
    /\ CHECK_BIT (Some l0) 15 = Done 0 false.
Proof.
  refine (proj2 (macros_round_trip [3; 128] 15 _)). cbn. lia.
Defined.

(** With the chunks below [j] taken and those from [j] on free, [m] calls
    of [pool_alloc] hand out the chunks [j], [j + 1], ... in this order. *)
Lemma alloc_n_in_order (m : nat) :
  forall (j : Z) (p : pool_t),
    handle_ok p -> 0 <= j -> j + Z.of_nat m <= n_chunks p ->
    (forall i, 0 <= i < j -> ledger_bit p i = true) ->
    (forall i, j <= i < n_chunks p -> ledger_bit p i = false) ->
    exists p' : pool_t,
      alloc_n (Some p) m
      = Done (chunk_addresses (data p) (chunk_size p) j m, Some p') false
      /\ handle_ok p'
      /\ chunk_size p' = chunk_size p /\ n_chunks p' = n_chunks p
      /\ data p' = data p
      /\ (forall i, 0 <= i < j + Z.of_nat m -> ledger_bit p' i = true)
      /\ (forall i, j + Z.of_nat m <= i < n_chunks p ->
                    ledger_bit p' i = false).
Proof.
  induction m as [| m IH]; intros j p Hok Hj Hroom Hbelow Hfrom.
  - exists p. cbn [alloc_n chunk_addresses]. do 5 (split; [done |]).
    split; intros i Hi; [apply Hbelow | apply Hfrom]; lia.
  - pose proof Hok as (_ & _ & _ & _ & l & Hl & _).
    assert (bit_of l j = false) as Hjfree.
    { rewrite <- (ledger_bit_eq p l) by done. apply Hfrom. lia. }
    destruct (pool_alloc_cases p l Hok Hl)
      as [[_ Hall] | (k & l' & Hk & Hclear & Hbefore & Hrun & Hlen & Hon & Hoff)].
    { rewrite Hall in Hjfree by lia. done. }
    assert (k = j) as ->.
    { destruct (Z.lt_trichotomy k j) as [Hlt | [-> | Hgt]]; [| done |].
      - assert (bit_of l k = true) as Hktaken.
        { rewrite <- (ledger_bit_eq p l) by done. apply Hbelow. lia. }
        congruence.
      - rewrite Hbefore in Hjfree by lia. done. }
    pose proof (handle_ok_with_ledger p l l' Hok Hl Hlen) as Hok1.
    destruct (IH (j + 1) (with_ledger p (Some l')))
      as (p' & Hrest & Hok' & Hcs' & Hn' & Hd' & Hset' & Hfree');
      [done | lia | cbn; lia | | |].
    { intros i Hi. rewrite (ledger_bit_eq _ l') by done.
      destruct (decide (i = j)) as [-> | Hne]; [done |].
      rewrite Hoff by lia. rewrite <- (ledger_bit_eq p l) by done.
      apply Hbelow. lia. }
    { cbn [n_chunks with_ledger]. intros i Hi.
      rewrite (ledger_bit_eq _ l') by done. rewrite Hoff by lia.
      rewrite <- (ledger_bit_eq p l) by done. apply Hfrom. lia. }
    exists p'. cbn [alloc_n chunk_addresses].
    rewrite Hrun, bind_done. cbn in Hrest. rewrite Hrest, bind_done.
    split; [done |]. split; [done |]. cbn in Hcs', Hn', Hd'.
    split; [done |]. split; [done |]. split; [done |].
    split; intros i Hi; [apply Hset' | apply Hfree']; cbn; lia.
Qed.

Lemma full_pool_alloc (p : pool_t) :
  handle_ok p ->
  (forall i, 0 <= i < n_chunks p -> ledger_bit p i = true) ->
  pool_alloc (Some p) = Done (NULL, Some p) false.
Proof.
  intros Hok Hfull. pose proof Hok as (_ & _ & _ & _ & l & Hl & _).
  destruct (pool_alloc_cases p l Hok Hl)
    as [[Hrun _] | (k & l' & Hk & Hclear & _)]; [done |].
  specialize (Hfull k Hk). rewrite (ledger_bit_eq p l) in Hfull by done.
  congruence.
Qed.

(** X10. A pool fresh from [pool_init] hands out its chunks in index
    order: the first [k <= n_chunks] calls of [pool_alloc] return
    [data], [data + chunk_size], ..., and once all [n_chunks] chunks are
    out the next call returns [NULL]. *)
Theorem fresh_pool_allocates_in_order
    (gh gl : bool) (gd cs n : Z) (p : pool_t) (w : bool) (k : nat) :
  is_size cs -> 0 <= n -> n + 7 < SIZE_MOD ->
  0 <= gd -> gd + n * cs <= SIZE_MOD ->
  pool_init gh gd gl cs n = Done (Some p) w ->
  Z.of_nat k <= n ->
  exists p' : pool_t,
    alloc_n (Some p) k = Done (chunk_addresses gd cs 0 k, Some p') false
    /\ (Z.of_nat k = n -> pool_alloc (Some p') = Done (NULL, Some p') false).
Proof.
  intros Hcs Hn Hpad Hgd Hfit Hinit Hk.
  pose proof (pool_init_ok gh gl gd cs n p w Hcs Hn Hpad Hgd Hfit Hinit) as Hok.
  destruct (pool_init_handle _ _ _ _ _ _ _ Hinit) as (H1 & H2 & H3 & _).
  assert (forall i, ledger_bit p i = false) as Hfresh.
  { revert Hinit. unfold pool_init.
    destruct gh; cbn [negb]; [| done]. case_bool_decide; [done |].
    unfold size_add. rewrite bind_flag. destruct gl; cbn; [| done].
    intros [= <- _] i. unfold ledger_bit. cbn. apply bit_of_zeros. }
  destruct (alloc_n_in_order k 0 p)
    as (p' & Hrun & Hok' & _ & Hn' & _ & Hset & _);
    [done | lia | lia | intros; lia | intros; apply Hfresh |].
  exists p'. rewrite H1, H3 in Hrun. split; [done |].
  intros Hall. apply full_pool_alloc; [done |].
  intros i Hi. apply Hset. lia.
Qed.

Lemma fresh_pool_allocates_in_order_witness :
  exists p' : pool_t,
    alloc_n (Some {| chunk_size := 16; n_chunks := 4; data := 4096;
                     ledger := Some [0] |}) 4
    = Done (chunk_addresses 4096 16 0 4, Some p') false
    /\ (Z.of_nat 4 = 4 -> pool_alloc (Some p') = Done (NULL, Some p') false).
Proof.
  apply (fresh_pool_allocates_in_order true true 4096 16 4
           {| chunk_size := 16; n_chunks := 4; data := 4096;
              ledger := Some [0] |} false 4).
  - size_facts.
  - lia.
  - size_facts.
  - lia.
  - size_facts.
  - vm_compute. reflexivity.
  - lia.
Defined.

(** X11. On a pool handle with [chunk_size > 0], freeing the pointer that
    [pool_alloc] just returned puts every ledger bit back as it was
    before the allocation. *)
Theorem alloc_then_free (p : pool_t) (r : Z) (p1 : pool_t) :
  handle_ok p -> 0 < chunk_size p ->
  pool_alloc (Some p) = Done (r, Some p1) false -> r <> NULL ->
  exists (p2 : pool_t) (w : bool),
    pool_free (Some p1) r = Done (Some p2) w
    /\ chunk_size p2 = chunk_size p /\ n_chunks p2 = n_chunks p
    /\ data p2 = data p
    /\ forall j, 0 <= j -> ledger_bit p2 j = ledger_bit p j.
Proof.
  intros Hok Hcs Hrun Hr. pose proof Hok as (_ & _ & _ & _ & l & Hl & _).
  destruct (pool_alloc_cases p l Hok Hl)
    as [[Hnone _] | (k & l' & Hk & Hclear & _ & Hsome & Hlen & Hon & Hoff)].
  { rewrite Hnone in Hrun. by injection Hrun as <- _. }
  rewrite Hsome in Hrun. injection Hrun as <- <-.
  pose proof (handle_ok_with_ledger p l l' Hok Hl Hlen) as Hok1.
  assert (free_index (with_ledger p (Some l')) (data p + k * chunk_size p) = k)
    as Hidx.
  { pose proof (free_index_inside (with_ledger p (Some l')) k 0 Hok1) as H.
    cbn in H. rewrite Z.add_0_r in H. apply H; lia. }
  destruct (pool_free_cases (with_ledger p (Some l')) l'
              (data p + k * chunk_size p) Hok1 eq_refl)
    as [[[Hnull | Hout] _] | (_ & _ & l2 & w & _ & Hfree & Hlen2 & Hoff2 & Hrest2)];
    [done | done | cbn in Hout; rewrite Hidx in Hout; lia |].
  rewrite Hidx in Hoff2, Hrest2.
  eexists _, w. split; [exact Hfree |]. cbn. repeat split.
  intros j Hj. unfold ledger_bit. cbn. rewrite Hl.
  destruct (decide (j = k)) as [-> | Hne]; [congruence |].
  rewrite Hrest2, Hoff by done. done.
Qed.

Lemma alloc_then_free_witness :
  exists (p2 : pool_t) (w : bool),
    pool_free (Some {| chunk_size := 16; n_chunks := 4; data := 4096;
                       ledger := Some [7] |}) 4128 = Done (Some p2) w
    /\ chunk_size p2 = chunk_size two_of_four
    /\ n_chunks p2 = n_chunks two_of_four
    /\ data p2 = data two_of_four
    /\ forall j, 0 <= j -> ledger_bit p2 j = ledger_bit two_of_four j.
Proof.
  apply (alloc_then_free two_of_four 4128
           {| chunk_size := 16; n_chunks := 4; data := 4096;
              ledger := Some [7] |} two_of_four_ok).
  - cbn. lia.
  - vm_compute. reflexivity.
  - done.
Defined.

(** X12. On a pool handle with [chunk_size > 0] in which every chunk below
    [i] is taken, freeing chunk [i] and allocating again returns the
    address of chunk [i]: the pool reuses the chunk just given back. *)
Theorem free_then_alloc (p : pool_t) (i : Z) :
  handle_ok p -> 0 < chunk_size p -> 0 <= i < n_chunks p ->
  (forall j, 0 <= j < i -> ledger_bit p j = true) ->
  exists (p1 p2 : pool_t) (w : bool),
    pool_free (Some p) (data p + i * chunk_size p) = Done (Some p1) w
    /\ pool_alloc (Some p1)
       = Done (data p + i * chunk_size p, Some p2) false.
Proof.
  intros Hok Hcs Hi Hbelow. pose proof Hok as (Hd & _ & _ & _ & l & Hl & _).
  unfold NULL in Hd.
  assert (free_index p (data p + i * chunk_size p) = i) as Hidx.
  { pose proof (free_index_inside p i 0 Hok) as H.
    rewrite Z.add_0_r in H. apply H; lia. }
  assert (0 <= i * chunk_size p) by nia.
  destruct (pool_free_cases p l (data p + i * chunk_size p) Hok Hl Hcs)
    as [[[Hnull | Hout] _] | (_ & _ & l1 & w & _ & Hfree & Hlen1 & Hoff1 & Hrest1)];
    [unfold NULL in Hnull; lia | lia |].
  rewrite Hidx in Hoff1, Hrest1.
  pose proof (handle_ok_with_ledger p l l1 Hok Hl Hlen1) as Hok1.
  destruct (pool_alloc_cases (with_ledger p (Some l1)) l1 Hok1 eq_refl)
    as [[_ Hall] | (k & l2 & Hk & Hclear & Hbefore & Hrun & _)].
  { cbn in Hall. rewrite Hall in Hoff1 by lia. done. }
  cbn in Hk, Hrun. assert (k = i) as ->.
  { destruct (Z.lt_trichotomy k i) as [Hlt | [-> | Hgt]]; [| done |].
    - assert (bit_of l k = true) as Hktaken.
      { rewrite <- (ledger_bit_eq p l) by done. apply Hbelow. lia. }
      rewrite <- Hrest1 in Hktaken by lia. congruence.
    - rewrite Hbefore in Hoff1 by lia. done. }
  by eexists _, _, w.
Qed.

Lemma free_then_alloc_witness :
  exists (p1 p2 : pool_t) (w : bool),
    pool_free (Some two_of_four) (data two_of_four + 1 * chunk_size two_of_four)
    = Done (Some p1) w
    /\ pool_alloc (Some p1)
       = Done (data two_of_four + 1 * chunk_size two_of_four, Some p2) false.
Proof.
  apply (free_then_alloc two_of_four 1 two_of_four_ok).
  - cbn. lia.
  - cbn. lia.
  - intros j Hj. assert (j = 0) as -> by lia. reflexivity.
Defined.

Lemma clear_twice (b k : Z) :
  0 <= k ->
  Z.land (Z.land b (Z.lnot (Z.shiftl 1 k)) mod 256) (Z.lnot (Z.shiftl 1 k))
    mod 256
  = Z.land b (Z.lnot (Z.shiftl 1 k)) mod 256.
Proof.
  intros Hk. apply Z.bits_inj'. intros j Hj.
  destruct (decide (j < 8)) as [Hlow | Hhigh].
  - rewrite !cleared_bits by lia.
    destruct (Z.testbit b j), (bool_decide (k = j)); done.
  - change 256 with (2 ^ 8). rewrite !Z.mod_pow2_bits_high by lia. done.
Qed.

Lemma CLEAR_BIT_twice (l l' : list Z) (i : Z) :
  0 <= i < 8 * Z.of_nat (length l) ->
  CLEAR_BIT (Some l) i = Done (Some l') false ->
  CLEAR_BIT (Some l') i = Done (Some l') false.
Proof.
  intros Hi. destruct (slot_in_range l i Hi) as (Hq & Hlt & Hr).
  unfold CLEAR_BIT. rewrite load_in_range, bind_done by done.
  rewrite store_in_range by done. intros [= <-].
  rewrite load_in_range, bind_done by (by rewrite ?length_insert).
  rewrite store_in_range by (by rewrite ?length_insert).
  rewrite list_lookup_insert_eq by done. cbn [default from_option].
  unfold id. rewrite clear_twice by lia. by rewrite list_insert_insert_eq.
Qed.

(** X13. On a pool handle with [chunk_size > 0], freeing the same pointer
    a second time changes nothing: the second [pool_free] returns the
    pool the first one produced. *)
Theorem double_free_is_idle (p p1 : pool_t) (chunk : Z) (w : bool) :
  handle_ok p -> 0 < chunk_size p ->
  pool_free (Some p) chunk = Done (Some p1) w ->
  exists w' : bool, pool_free (Some p1) chunk = Done (Some p1) w'.
Proof.
  intros Hok Hcs Hfree. pose proof Hok as (_ & _ & _ & _ & l & Hl & Hcover).
  destruct (pool_free_cases p l chunk Hok Hl Hcs)
    as [[_ [w0 Hsame]] | (Hnn & Hidx & l1 & w1 & Hclear & Hrun & Hlen & _)].
  - rewrite Hsame in Hfree. injection Hfree as <- _. by exists w0.
  - rewrite Hrun in Hfree. injection Hfree as <- _.
    pose proof (handle_ok_with_ledger p l l1 Hok Hl Hlen) as Hok1.
    destruct (pool_free_cases (with_ledger p (Some l1)) l1 chunk Hok1 eq_refl)
      as [[_ [w0 Hsame]] | (_ & _ & l2 & w2 & Hclear2 & Hrun2 & _)];
      [done | by exists w0 |].
    change (free_index (with_ledger p (Some l1)) chunk)
      with (free_index p chunk) in Hclear2.
    rewrite (CLEAR_BIT_twice l l1 (free_index p chunk)) in Hclear2
      by (done || lia).
    injection Hclear2 as <-. by exists w2.
Qed.

Lemma double_free_is_idle_witness :
  exists w' : bool,
    pool_free (Some {| chunk_size := 16; n_chunks := 4; data := 4096;
                       ledger := Some [1] |}) 4112
    = Done (Some {| chunk_size := 16; n_chunks := 4; data := 4096;
                    ledger := Some [1] |}) w'.
Proof.
  apply (double_free_is_idle two_of_four _ 4112 false two_of_four_ok).
  - cbn. lia.
  - vm_compute. reflexivity.
Defined.

(** X14. On a pool handle with [chunk_size > 0], [pool_free] of a pointer
    anywhere inside chunk [i], not only at its start, computes index [i]
    and clears the bit of chunk [i], leaving the other bits alone. *)
Theorem free_of_interior_pointer (p : pool_t) (i d : Z) :
  handle_ok p -> 0 < chunk_size p ->
  0 <= i < n_chunks p -> 0 <= d < chunk_size p ->
  free_index p (data p + i * chunk_size p + d) = i
  /\ exists (p1 : pool_t) (w : bool),
       pool_free (Some p) (data p + i * chunk_size p + d) = Done (Some p1) w
       /\ ledger_bit p1 i = false
       /\ forall j, 0 <= j -> j <> i -> ledger_bit p1 j = ledger_bit p j.
Proof.
  intros Hok Hcs Hi Hdelta.
  pose proof (free_index_inside p i d Hok Hcs Hi Hdelta) as Hidx.
  split; [done |]. pose proof Hok as (Hd & _ & _ & _ & l & Hl & _).
  unfold NULL in Hd. assert (0 <= i * chunk_size p) by nia.
  destruct (pool_free_cases p l (data p + i * chunk_size p + d) Hok Hl Hcs)
    as [[[Hnull | Hout] _] | (_ & _ & l1 & w & _ & Hfree & _ & Hoff & Hrest)];
    [unfold NULL in Hnull; lia | lia |].
  rewrite Hidx in Hoff, Hrest. eexists _, w. split; [exact Hfree |].
  unfold ledger_bit. cbn. rewrite Hl. split; [done |].
  intros j Hj Hne. by apply Hrest.
Qed.

Lemma free_of_interior_pointer_witness :
  free_index two_of_four (data two_of_four + 1 * chunk_size two_of_four + 5)
  = 1.
Proof.
  refine (proj1 (free_of_interior_pointer two_of_four 1 5 two_of_four_ok
                   _ _ _)); cbn; lia.
Defined.

(** X15. [pool_free] divides by [chunk_size] without testing it: on a pool
    whose [chunk_size] is [0], with buffer and ledger present, freeing
    any non-null pointer is a division by zero. *)
Theorem free_in_zero_size_pool (p : pool_t) (chunk : Z) :
  chunk_size p = 0 -> data p <> NULL -> ledger p <> None -> chunk <> NULL ->
  pool_free (Some p) chunk = Trap DivByZero.
Proof.
  intros Hcs Hd Hl Hc. unfold pool_free.
  rewrite !bool_decide_eq_false_2 by done.
  unfold size_sub. rewrite bind_flag. unfold size_div.
  by rewrite bool_decide_eq_true_2 by done.
Qed.

Lemma free_in_zero_size_pool_witness :
  pool_free (Some {| chunk_size := 0; n_chunks := 4; data := 4096;
                     ledger := Some [1] |}) 4096
  = Trap DivByZero.
Proof.
  apply free_in_zero_size_pool; done.
Defined.

(** X16. The ledger size [(n_chunks + 7) / 8] is computed in [size_t]:
    for [n_chunks] within seven of [SIZE_MAX] the sum wraps, [pool_init]
    makes a ledger of no bytes at all, and the first [pool_alloc] reads
    past the end of it. *)
Theorem ledger_size_wraps (gd cs n : Z) :
  gd <> NULL -> SIZE_MOD - 7 <= n < SIZE_MOD ->
  pool_init true gd true cs n
  = Done (Some {| chunk_size := cs; n_chunks := n; data := gd;
                  ledger := Some [] |}) true
  /\ pool_alloc (Some {| chunk_size := cs; n_chunks := n; data := gd;
                        ledger := Some [] |})
     = Trap OutOfBounds.
Proof.
  intros Hgd Hn. pose proof SIZE_MOD_eq as Hmod. split.
  - unfold pool_init. cbn [negb]. rewrite bool_decide_eq_false_2 by done.
    unfold size_add, size_wrap.
    rewrite <- (Z.mod_unique (n + 7) SIZE_MOD 1 (n + 7 - SIZE_MOD)) by lia.
    rewrite bool_decide_eq_true_2 by lia. rewrite bind_flag. cbn [negb].
    assert ((n + 7 - SIZE_MOD) / 8 = 0) as ->.
    { apply Z.div_small. lia. }
    reflexivity.
  - unfold pool_alloc. cbn [n_chunks].
    destruct (Z.to_nat n) as [| todo] eqn:Htodo.
    { lia. }
    reflexivity.
Qed.

Lemma ledger_size_wraps_witness :
  pool_alloc (Some {| chunk_size := 0; n_chunks := SIZE_MAX; data := 4096;
                      ledger := Some [] |})
  = Trap OutOfBounds.
Proof.
  refine (proj2 (ledger_size_wraps 4096 0 SIZE_MAX _ _)); [done | size_facts].
Defined.

(** X17. On a pool handle with [chunk_size > 0], a pointer returned by
    [pool_alloc] is the start of a chunk that lies wholly inside the
    buffer, and that chunk was free before the call. *)
Theorem alloc_returns_chunk (p : pool_t) (r : Z) (p1 : pool_t) (w : bool) :
  handle_ok p -> 0 < chunk_size p ->
  pool_alloc (Some p) = Done (r, Some p1) w -> r <> NULL ->
  data p <= r
  /\ r + chunk_size p <= data p + n_chunks p * chunk_size p
  /\ (r - data p) mod chunk_size p = 0
  /\ ledger_bit p ((r - data p) / chunk_size p) = false
  /\ ledger_bit p1 ((r - data p) / chunk_size p) = true.
Proof.
  intros Hok Hcs Hrun Hr. pose proof Hok as (_ & _ & _ & _ & l & Hl & _).
  destruct (pool_alloc_cases p l Hok Hl)
    as [[Hnone _] | (k & l' & Hk & Hclear & _ & Hsome & _ & Hon & _)].
  { rewrite Hnone in Hrun. by injection Hrun as <- _. }
  rewrite Hsome in Hrun. injection Hrun as <- <- _.
  replace (data p + k * chunk_size p - data p) with (k * chunk_size p) by lia.
  rewrite Z.div_mul, Z.mod_mul by lia.
  unfold ledger_bit. cbn. rewrite Hl.
  repeat split; try done; nia.
Qed.

Lemma alloc_returns_chunk_witness :
  data two_of_four <= 4128
  /\ 4128 + chunk_size two_of_four
     <= data two_of_four + n_chunks two_of_four * chunk_size two_of_four
  /\ (4128 - data two_of_four) mod chunk_size two_of_four = 0
  /\ ledger_bit two_of_four
       ((4128 - data two_of_four) / chunk_size two_of_four) = false
  /\ ledger_bit {| chunk_size := 16; n_chunks := 4; data := 4096;
                   ledger := Some [7] |}
       ((4128 - data two_of_four) / chunk_size two_of_four) = true.
Proof.
  apply (alloc_returns_chunk two_of_four 4128 _ false two_of_four_ok).
  - cbn. lia.
  - vm_compute. reflexivity.
  - done.
Defined.

Lemma pool_step_safe (p : pool_t) (o : op) :
  handle_ok p -> 0 < chunk_size p ->
  exists (p' : pool_t) (w : bool),
    step (Some p) o = Done (Some p') w
    /\ handle_ok p'
    /\ chunk_size p' = chunk_size p /\ n_chunks p' = n_chunks p
    /\ data p' = data p.
Proof.
  intros Hok Hcs. pose proof Hok as (_ & _ & _ & _ & l & Hl & _).
  destruct o as [| chunk]; cbn [step].
  - destruct (pool_alloc_cases p l Hok Hl)
      as [[Hrun _] | (k & l' & _ & _ & _ & Hrun & Hlen & _)];
      rewrite Hrun, bind_done.
    + by exists p, false.
    + eexists _, false. split; [reflexivity |].
      split; [by eapply handle_ok_with_ledger | done].
  - destruct (pool_free_cases p l chunk Hok Hl Hcs)
      as [[_ [w Hrun]] | (_ & _ & l' & w & _ & Hrun & Hlen & _)];
      rewrite Hrun.
    + by exists p, w.
    + eexists _, w. split; [reflexivity |].
      split; [by eapply handle_ok_with_ledger | done].
Qed.

(** X18. On a pool handle with [chunk_size > 0], every sequence of
    [pool_alloc] and [pool_free] calls, with any pointers at all given to
    [pool_free], runs to its end: no call reads or writes outside the
    ledger or divides by zero, and the pool stays a handle with the same
    buffer, chunk size and chunk count. *)
Theorem pool_calls_are_safe (ops : list op) (p : pool_t) :
  handle_ok p -> 0 < chunk_size p ->
  exists (p' : pool_t) (w : bool),
    run (Some p) ops = Done (Some p') w
    /\ handle_ok p'
    /\ chunk_size p' = chunk_size p /\ n_chunks p' = n_chunks p
    /\ data p' = data p.
Proof.
  revert p. induction ops as [| o ops IH]; intros p Hok Hcs.
  - by exists p, false.
  - destruct (pool_step_safe p o Hok Hcs)
      as (p1 & w1 & Hstep & Hok1 & Hcs1 & Hn1 & Hd1).
    destruct (IH p1 Hok1) as (p2 & w2 & Hrun & Hok2 & Hcs2 & Hn2 & Hd2);
      [lia |].
    exists p2, (w1 || w2). cbn [run]. rewrite Hstep, bind_flag, Hrun.
    split; [done |]. split; [done |]. repeat split; congruence.
Qed.

Lemma pool_calls_are_safe_witness :
  exists (p' : pool_t) (w : bool),
    run (Some two_of_four) [Alloc; Free 7; Free 4112; Free SIZE_MAX; Alloc]
    = Done (Some p') w
    /\ handle_ok p'
    /\ chunk_size p' = chunk_size two_of_four
    /\ n_chunks p' = n_chunks two_of_four
    /\ data p' = data two_of_four.
Proof.
  apply (pool_calls_are_safe _ two_of_four two_of_four_ok). cbn. lia.
Defined.

End PoolLaws.
